(** * plane-tracker: the reconciliation of polled aircraft snapshots

    A shallow embedding of [src/App.tsx]: the two state updaters run by
    [fetchData] (the tracked aircraft array and the trail record), the
    poll-interval handler, the great-circle distance, the comparator of
    the sidebar and the scale of the icons.

    Numbers.  The reconciliation only copies the numeric fields of a
    snapshot, so it is modelled for an arbitrary type [num] of field
    values.  Where the value of a number matters, the JavaScript
    [number] is an IEEE-754 double ([PrimFloat.float]): in the interval
    handler, in the feed values, in [haversineDistance] and in the
    comparator of the sidebar.  The results of [Math.sin], [Math.cos]
    and [Math.atan2] that ECMAScript leaves to the engine are taken from
    an [Engine].  Only [getScaleFromAltitude] is read on real numbers,
    for the order of its values. *)

From Stdlib Require Import Floats ZArith.
From Stdlib Require Import Reals Lra.
From stdpp Require Import gmap strings list sorting.

(** ** The insertion-ordered [Map] of JavaScript

    A [Map] keeps its entries in the order in which their keys were
    first set; setting a key that is present replaces the value where
    it stands. *)

Section JsMap.
Context {V : Type}.

(** [map.set(k, v)] *)
Fixpoint Map_set (k : string) (v : V) (m : list (string * V))
  : list (string * V) :=
  match m with
  | [] => [(k, v)]
  | e :: m' =>
      if decide (e.1 = k) then (e.1, v) :: m' else e :: Map_set k v m'
  end.

(** [map.get(k)] *)
Fixpoint Map_get (k : string) (m : list (string * V)) : option V :=
  match m with
  | [] => None
  | e :: m' => if decide (e.1 = k) then Some e.2 else Map_get k m'
  end.

(** [new Map(entries)] *)
Definition Map_new (entries : list (string * V)) : list (string * V) :=
  fold_left (fun m e => Map_set e.1 e.2 m) entries [].

(** [Array.from(map.values())] *)
Definition Map_values (m : list (string * V)) : list V := m.*2.
End JsMap.

Section Reconciler.
Context {num : Type}.

(** [interface Plane] *)
Record Plane : Type := mkPlane {
  hex : string;
  flight : string;
  lat : num;
  lon : num;
  altitude : num;
  track : num;
  speed : num;
  active : bool
}.

(** [{ ...plane, active: b }] *)
Definition with_active (plane : Plane) (b : bool) : Plane :=
  {| hex := hex plane; flight := flight plane;
     lat := lat plane; lon := lon plane;
     altitude := altitude plane; track := track plane;
     speed := speed plane; active := b |}.

(** The body of [data.forEach]: update or add a plane of the batch. *)
Definition upsert (planeMap : list (string * Plane)) (plane : Plane)
  : list (string * Plane) :=
  Map_set (hex plane) (with_active plane true) planeMap.

(** The body of [planeMap.forEach], at the entry [e] of the map. *)
Definition mark_absent (dataHexSet : gset string)
    (planeMap : list (string * Plane)) (e : string * Plane)
  : list (string * Plane) :=
  if decide (e.1 ∈ dataHexSet) then planeMap
  else Map_set e.1 (with_active e.2 false) planeMap.

(** The [Map] held in [planeMap] when the updater of [setPlanes]
    returns.  The last loop is [planeMap.forEach] with a [set] in its
    body: a [set] of a key that is present moves no entry, so the
    loop visits the entries the map had when it started. *)
Definition planeMap_of (data prevPlanes : list Plane)
  : list (string * Plane) :=
  let dataHexSet : gset string := list_to_set (hex <$> data) in
  let planeMap := Map_new ((λ p, (hex p, p)) <$> prevPlanes) in
  let planeMap := fold_left upsert data planeMap in
  fold_left (mark_absent dataHexSet) planeMap planeMap.

(** The updater given to [setPlanes]. *)
Definition setPlanes (data prevPlanes : list Plane) : list Plane :=
  Map_values (planeMap_of data prevPlanes).

(** What [updated[key]] reads on the plain object that holds the trails:
    the own property when there is one, and otherwise what the key finds
    on [Object.prototype]. *)
Inductive Property (A : Type) : Type :=
  | Own (value : A)
  | Inherited
  | Undefined.
Global Arguments Own {A} value.
Global Arguments Inherited {A}.
Global Arguments Undefined {A}.

(** The string keys of [Object.prototype] (ECMAScript, with Annex B).
    Each holds a function, and [__proto__] reads as [Object.prototype]
    itself: a value that is truthy and is not iterable. *)
Definition Object_prototype_keys : list string :=
  ["constructor"; "hasOwnProperty"; "isPrototypeOf"; "propertyIsEnumerable";
   "toLocaleString"; "toString"; "valueOf"; "__proto__";
   "__defineGetter__"; "__defineSetter__";
   "__lookupGetter__"; "__lookupSetter__"].

(** [updated[key]] *)
Definition Object_get {A : Type} (updated : gmap string A) (key : string)
  : Property A :=
  match updated !! key with
  | Some value => Own value
  | None =>
      if decide (key ∈ Object_prototype_keys) then Inherited else Undefined
  end.

(** One turn of the loop in the updater given to [setPlaneTrails];
    [None] when it throws.  [!updated[key]] holds of [undefined] only,
    and the spread [[...updated[key], newPoint]] throws a [TypeError] on
    a value that is not iterable. *)
Definition trail_step (updated : gmap string (list (num * num)))
    (plane : Plane) : option (gmap string (list (num * num))) :=
  let key := hex plane in
  let newPoint := (lat plane, lon plane) in
  let updated :=
    match Object_get updated key with
    | Undefined => <[key := []]> updated
    | _ => updated
    end in
  match Object_get updated key with
  | Own trail => Some (<[key := trail ++ [newPoint]]> updated)
  | _ => None
  end.

(** The updater given to [setPlaneTrails]; [None] when it throws. *)
Definition setPlaneTrails (data : list Plane)
    (prev : gmap string (list (num * num)))
  : option (gmap string (list (num * num))) :=
  fold_left (λ updated plane, updated ≫= λ u, trail_step u plane)
            data (Some prev).

(** The two pieces of component state the poll writes, as the two
    updaters leave them: the array the updater of [setPlanes] returns,
    and the record the updater of [setPlaneTrails] returns, [None] once
    that updater has thrown.  The throw happens while React renders,
    outside the [try] of [fetchData]; no error boundary catches it, and
    React unmounts the component. *)
Record State : Type := mkState {
  planes : list Plane;
  planeTrails : option (gmap string (list (num * num)))
}.

(** [useState([])] and [useState({})] *)
Definition init : State := {| planes := []; planeTrails := Some ∅ |}.

(** The two updaters run on the same batch. *)
Definition update (data : list Plane) (st : State) : State :=
  {| planes := setPlanes data (planes st);
     planeTrails := planeTrails st ≫= setPlaneTrails data |}.

(** What the response of the feed decodes to.  A decoded array holds
    objects with a string [hex]; arrays of other values are outside this
    model. *)
Inductive Response : Type :=
  | FetchFailed                     (* [fetch] or [res.json()] throws *)
  | Decoded (data : list Plane)     (* an array of snapshots *)
  | NotAnArray.                     (* a JSON value that is no array *)

Inductive Outcome : Type :=
  | Updated        (* both updaters returned *)
  | ErrorLogged    (* the [catch] of [fetchData] logged the failure *)
  | Unmounted.     (* an updater threw: the component is gone *)

(** [fetchData], with the render that runs the updaters it queues.  On a
    value that is no array [data.map] is not a function, and both
    updaters throw.  Once the component is unmounted a response changes
    nothing. *)
Definition fetchData (response : Response) (st : State) : State * Outcome :=
  match planeTrails st with
  | None => (st, Unmounted)
  | Some _ =>
      match response with
      | FetchFailed => (st, ErrorLogged)
      | Decoded data =>
          let st' := update data st in
          (st', if planeTrails st' is Some _ then Updated else Unmounted)
      | NotAnArray =>
          ({| planes := planes st; planeTrails := None |}, Unmounted)
      end
  end.

(** A run of batches through the two updaters, oldest batch first. *)
Definition poll (batches : list (list Plane)) (st : State) : State :=
  fold_left (fun st data => update data st) batches st.

(** *** Observations used by the statements *)

(** The tracked entry of a hex: the plane of the array with that hex. *)
Fixpoint tracked (h : string) (ps : list Plane) : option Plane :=
  match ps with
  | [] => None
  | p :: ps' => if decide (hex p = h) then Some p else tracked h ps'
  end.

(** The last snapshot of a batch with a given hex, in input order. *)
Fixpoint last_with_hex (h : string) (data : list Plane) : option Plane :=
  match data with
  | [] => None
  | p :: data' =>
      match last_with_hex h data' with
      | Some q => Some q
      | None => if decide (hex p = h) then Some p else None
      end
  end.

(** The snapshots of a batch with a given hex, in input order. *)
Definition with_hex (h : string) (data : list Plane) : list Plane :=
  filter (fun p => hex p = h) data.

(** The [(lat, lon)] points a batch holds for a hex. *)
Definition points (h : string) (data : list Plane) : list (num * num) :=
  (fun p => (lat p, lon p)) <$> with_hex h data.

(** The trail of a hex; no trail, the empty trail and the record lost
    to a throw read the same. *)
Definition trail (h : string) (st : State) : list (num * num) :=
  default [] (planeTrails st ≫= λ trails, trails !! h).

(** Every entry of a map of planes stands under the hex of its plane. *)
Definition keyed (m : list (string * Plane)) : Prop :=
  Forall (λ e, hex e.2 = e.1) m.

(** At most one tracked aircraft per hex. *)
Definition one_per_hex (ps : list Plane) : Prop := NoDup (hex <$> ps).

(** Two planes agree on every field but [active]. *)
Definition same_fields (p q : Plane) : Prop :=
  hex p = hex q ∧ flight p = flight q ∧ lat p = lat q ∧ lon p = lon q ∧
  altitude p = altitude q ∧ track p = track q ∧ speed p = speed q.

(** The point a batch records for a hex, when it holds the hex. *)
Definition point_in (h : string) (data : list Plane) : option (num * num) :=
  (λ s, (lat s, lon s)) <$> last_with_hex h data.

(** The batches of a run that hold a snapshot of a hex. *)
Definition batches_with (h : string) (batches : list (list Plane))
  : list (list Plane) :=
  filter (λ data, h ∈ hex <$> data) batches.

(** No hex of the batch names a member of [Object.prototype]. *)
Definition plain_hexes (data : list Plane) : Prop :=
  Forall (λ p, hex p ∉ Object_prototype_keys) data.

(** What a turn of the trail loop leaves when it does not throw: the
    new point at the end of the trail of the hex. *)
Definition append_point (updated : gmap string (list (num * num)))
    (plane : Plane) : gmap string (list (num * num)) :=
  <[hex plane := default [] (updated !! hex plane) ++ [(lat plane, lon plane)]]>
    updated.
End Reconciler.

Arguments Plane : clear implicits.
Arguments State : clear implicits.
Arguments Response : clear implicits.

(** The hexes [data.forEach] adds to a map whose keys are [seen], in the
    order in which it first sets them. *)
Fixpoint new_hexes {num : Type} (seen : list string) (data : list (Plane num))
  : list string :=
  match data with
  | [] => []
  | p :: data' =>
      if decide (hex p ∈ seen) then new_hexes seen data'
      else hex p :: new_hexes (seen ++ [hex p]) data'
  end.

(** The polls of a session, oldest first. *)
Definition session {num : Type} (responses : list (Response num))
    (st : State num) : State num :=
  fold_left (λ st response, (fetchData response st).1) responses st.

(** ** The poll interval *)

(** [useState<number>(500)] *)
Definition updateInterval_default : float := 500%float.

(** [handleIntervalChange], from the result of [Number(e.target.value)]
    on: the stored interval after the event. *)
Definition handleIntervalChange (value updateInterval : float) : float :=
  if negb (PrimFloat.is_nan value) && PrimFloat.leb 100 value
  then value else updateInterval.

(** The interval after a run of change events, oldest first. *)
Definition interval_after (values : list float) : float :=
  fold_left (fun cur value => handleIntervalChange value cur)
            values updateInterval_default.

(** The test of [handleIntervalChange]: [!isNaN(value) && value >= 100]. *)
Definition valid_interval (value : float) : bool :=
  negb (PrimFloat.is_nan value) && PrimFloat.leb 100 value.

(** ** Feed values

    A decoded snapshot may lack a field ([None]) and a JSON number may
    decode to an infinity. *)

Definition finite (x : float) : bool :=
  negb (PrimFloat.is_nan x) && negb (PrimFloat.is_infinity x).

Definition present_finite (x : option float) : bool :=
  match x with Some v => finite v | None => false end.

(** The malformed-input condition, in the words of the specification:
    a required numeric field is missing, or a coordinate is not finite.
    The source has no such test. *)
Definition malformed (p : Plane (option float)) : bool :=
  negb (present_finite (lat p) && present_finite (lon p)
        && bool_decide (is_Some (altitude p))
        && bool_decide (is_Some (track p))
        && bool_decide (is_Some (speed p))).

(** ** The scenario of the specification *)

Definition A1_at (la : float) : Plane float :=
  mkPlane "A1" "UAL1 " la (-75)%float 10000%float 90%float 400%float false.

Definition B2_at (la : float) : Plane float :=
  mkPlane "B2" "DAL2" la (-74)%float 32000%float 270%float 450%float false.

(** A snapshot of A1 whose latitude decoded to an infinity, and one that
    came without its latitude. *)
Definition A1_infinite : Plane (option float) :=
  mkPlane "A1" "UAL1 " (Some infinity) (Some (-75)%float)
          (Some 10000%float) (Some 90%float) (Some 400%float) false.

Definition A1_no_lat : Plane (option float) :=
  mkPlane "A1" "UAL1 " None (Some (-75)%float)
          (Some 10000%float) (Some 90%float) (Some 400%float) false.


(** A snapshot whose hex is the name of a member of [Object.prototype]. *)
Definition constructor_at (la : float) : Plane float :=
  mkPlane "constructor" "N0NE" la (-75)%float 10000%float 90%float
          400%float false.

(** ** Great-circle distance and the sidebar order, on doubles *)

Local Open Scope float_scope.

(** What ECMAScript leaves to the engine: the values of [Math.sin],
    [Math.cos] and [Math.atan2] at the arguments for which the standard
    names none (there the result is "an implementation-approximated
    Number value"). *)
Record Engine : Type := mkEngine {
  sin_approx : float → float;
  cos_approx : float → float;
  atan2_approx : float → float → float
}.

(** [Math.PI] *)
Definition Math_PI : float := 0x1.921fb54442d18p+1.

(** [Math.sin(x)]: NaN at NaN and at the infinities, and [x] at the
    zeros. *)
Definition Math_sin (E : Engine) (x : float) : float :=
  if is_nan x || is_infinity x then nan
  else if is_zero x then x
  else sin_approx E x.

(** [Math.cos(x)]: NaN at NaN and at the infinities, and 1 at the
    zeros. *)
Definition Math_cos (E : Engine) (x : float) : float :=
  if is_nan x || is_infinity x then nan
  else if is_zero x then 1
  else cos_approx E x.

(** [Math.sqrt(x)], the IEEE 754 square root: NaN at NaN and below
    zero. *)
Definition Math_sqrt (x : float) : float := PrimFloat.sqrt x.

(** [Math.atan2(y, x)]: NaN when an argument is NaN; [y] when [y] is a
    zero and [x] is [+0] or above; a zero of the sign of [y] when [y] is
    finite and not a zero and [x] is [+∞]. *)
Definition Math_atan2 (E : Engine) (y x : float) : float :=
  if is_nan y || is_nan x then nan
  else if is_zero y && ((0 <? x) || (is_zero x && negb (get_sign x))) then y
  else if is_finite y && negb (is_zero y) && (x =? infinity)
       then (if get_sign y then neg_zero else zero)
  else atan2_approx E y x.

(** [toRad] *)
Definition toRad (x : float) : float := (x * Math_PI) / 180.

(** The quantity [a] of [haversineDistance]. *)
Definition haversine_a (E : Engine) (lat1 lon1 lat2 lon2 : float) : float :=
  let dLat := toRad (lat2 - lat1) in
  let dLon := toRad (lon2 - lon1) in
  Math_sin E (dLat / 2) * Math_sin E (dLat / 2) +
  Math_cos E (toRad lat1) *
  Math_cos E (toRad lat2) *
  Math_sin E (dLon / 2) *
  Math_sin E (dLon / 2).

(** [haversineDistance] *)
Definition haversineDistance (E : Engine) (lat1 lon1 lat2 lon2 : float)
  : float :=
  let R := 6371 in
  let a := haversine_a E lat1 lon1 lat2 lon2 in
  let c := 2 * Math_atan2 E (Math_sqrt a) (Math_sqrt (1 - a)) in
  R * c.

(** A coordinate of a tracked snapshot as the arithmetic of
    [haversineDistance] reads it: a field the feed left out is
    [undefined], which is NaN in a difference and in a product. *)
Definition ToNumber (x : option float) : float := default nan x.

(** The comparator given to [sort] for the sidebar. *)
Definition sidebar_compare (E : Engine) (userLocation : option (float * float))
    (a b : Plane (option float)) : float :=
  if active a && negb (active b) then -1
  else if negb (active a) && active b then 1
  else match userLocation with
       | Some home =>
           let distA := haversineDistance E home.1 home.2
                          (ToNumber (lat a)) (ToNumber (lon a)) in
           let distB := haversineDistance E home.1 home.2
                          (ToNumber (lat b)) (ToNumber (lon b)) in
           distA - distB
       | None => 0
       end.

(** [Array.prototype.sort(cmp)]: a stable sort; [x] goes behind [y] only
    when [cmp x y] is above zero, and a NaN from the comparator counts
    as [+0].  ECMAScript fixes the result when the comparator is
    consistent on the array; otherwise the order is the engine's, and
    this is the order of an insertion sort. *)
Fixpoint sort_insert {A : Type} (cmp : A → A → float) (x : A) (l : list A)
  : list A :=
  match l with
  | [] => [x]
  | y :: l' => if 0 <? cmp x y then y :: sort_insert cmp x l' else x :: l
  end.

Definition Array_sort {A : Type} (cmp : A → A → float) (l : list A) : list A :=
  fold_right (sort_insert cmp) [] l.

(** The sidebar list. *)
Definition sidebar (E : Engine) (userLocation : option (float * float))
    (ps : list (Plane (option float))) : list (Plane (option float)) :=
  Array_sort (sidebar_compare E userLocation) ps.

(** The aircraft of the distance scenario, and one that came without
    its latitude. *)
Definition plane_near : Plane (option float) :=
  mkPlane "A1" "UAL1 " (Some 0) (Some 1) (Some 10000) (Some 90) (Some 400)
          true.

Definition plane_far : Plane (option float) :=
  mkPlane "B2" "DAL2" (Some 0) (Some 2) (Some 32000) (Some 270) (Some 450)
          true.

Definition plane_lost : Plane (option float) :=
  mkPlane "C3" "AAL3" None (Some 1.5) (Some 20000) (Some 180) (Some 420) true.

(** Two active aircraft on the parallel of 40 degrees north. *)
Definition plane_west : Plane (option float) :=
  mkPlane "D4" "JBU4" (Some 40) (Some (-74)) (Some 12000) (Some 80)
          (Some 380) true.

Definition plane_east : Plane (option float) :=
  mkPlane "E5" "SWA5" (Some 40) (Some (-71)) (Some 36000) (Some 85)
          (Some 460) true.

(** A table of values of a function, NaN where the table has no row. *)
Fixpoint tabulated (rows : list (float * float)) (x : float) : float :=
  match rows with
  | [] => nan
  | row :: rows' => if row.1 =? x then row.2 else tabulated rows' x
  end.

Fixpoint tabulated2 (rows : list (float * float * float)) (y x : float)
  : float :=
  match rows with
  | [] => nan
  | row :: rows' =>
      if (row.1.1 =? y) && (row.1.2 =? x) then row.2
      else tabulated2 rows' y x
  end.

(** An engine for the scenarios: at the arguments they reach it returns
    the sine, the cosine and the arc tangent rounded to the nearest
    double. *)
Definition scenario_engine : Engine :=
  {| sin_approx := tabulated
       [ (0x1.1df46a2529d39p-7, 0x1.1df37c4954c21p-7);
         (0x1.1df46a2529d39p-6, 0x1.1df0b2b89dd1ep-6);
         (0x1.1df46a2529d39p-5, 0x1.1de58c9f7dc27p-5);
         (-0x1.acee9f37bebd5p-3, -0x1.a9cd9ac4258f5p-3);
         (0x1.921fb54442d18p+0, 1) ];
     cos_approx := tabulated
       [ (0x1.acee9f37bebd5p-3, 0x1.f4cfc327a008p-1);
         (-0x1.acee9f37bebd5p-3, 0x1.f4cfc327a008p-1);
         (0x1.657184ae74487p-1, 0x1.8836fa2cf5039p-1) ];
     atan2_approx := tabulated2
       [ (0x1.1df37c4954c21p-7, 0x1.fffb02599c9cdp-1, 0x1.1df46a2529d39p-7);
         (0x1.1df0b2b89dd1ep-6, 0x1.ffec097f5af8ap-1, 0x1.1df46a2529d39p-6);
         (0x1.b61a3f1e8028p-8, 0x1.fffd1240085f9p-1, 0x1.b61b14f78ac1p-8);
         (0x1.b604e524429edp-6, 0x1.ffd1268f45b29p-1, 0x1.b61241c8d3e32p-6) ]
  |}.

(** An engine of first-order approximations, whose sine is odd. *)
Definition small_angle_engine : Engine :=
  {| sin_approx := λ x, x;
     cos_approx := λ _, 1;
     atan2_approx := λ y x, y / x |}.

Local Close Scope float_scope.

(** The binary64 format of [SpecFloat]: its least exponent, a result
    that is not NaN and has a given sign, and a result that is infinite
    or NaN. *)
Definition emin64 : Z := SpecFloat.emin prec emax.

Definition signed (s : bool) (r : spec_float) : Prop :=
  (∃ m e, r = S754_finite s m e) ∨ r = S754_infinity s.

Definition nonfinite (r : spec_float) : Prop :=
  match r with
  | S754_nan | S754_infinity _ => True
  | _ => False
  end.

(** ** The scale of the icons, over the reals *)

Local Open Scope R_scope.

(** [getScaleFromAltitude], with [Math.max] and [Math.min] on reals. *)
Definition getScaleFromAltitude (altitude : R) : R :=
  let minAlt := 0 in
  let maxAlt := 40000 in
  let minScale := 0.5 in
  let maxScale := 2.0 in
  let clamped := Rmax minAlt (Rmin maxAlt altitude) in
  minScale + ((clamped - minAlt) / (maxAlt - minAlt)) * (maxScale - minScale).

Local Close Scope R_scope.

(** * Facts *)

(** ** The insertion-ordered map *)

Section JsMapFacts.
Context {V : Type}.
Implicit Types (m : list (string * V)) (k : string) (v : V).

Lemma Map_get_set k k' v m :
  Map_get k' (Map_set k v m) = if decide (k = k') then Some v else Map_get k' m.
Proof.
  induction m as [|e m IH]; simpl.
  - by destruct (decide (k = k')).
  - destruct (decide (e.1 = k)) as [Hk|Hk]; simpl.
    + destruct (decide (e.1 = k')), (decide (k = k')); congruence.
    + rewrite IH.
      destruct (decide (e.1 = k')), (decide (k = k')); congruence.
Qed.

Lemma Map_get_None k m : Map_get k m = None ↔ k ∉ m.*1.
Proof.
  induction m as [|e m IH]; simpl.
  - split; [intros _; apply not_elem_of_nil | done].
  - rewrite not_elem_of_cons, <- IH.
    destruct (decide (e.1 = k)); intuition congruence.
Qed.

Lemma Map_get_Some_key k v m : Map_get k m = Some v → k ∈ m.*1.
Proof.
  intros Hget. destruct (decide (k ∈ m.*1)) as [|Hn]; [done|].
  apply Map_get_None in Hn. congruence.
Qed.

Lemma Map_set_fresh k v m : k ∉ m.*1 → Map_set k v m = m ++ [(k, v)].
Proof.
  induction m as [|e m IH]; simpl; [done|].
  rewrite not_elem_of_cons. intros [Hne Hnin].
  destruct (decide (e.1 = k)); [congruence|]. by rewrite IH.
Qed.

Lemma Map_set_keys_present k v m : k ∈ m.*1 → (Map_set k v m).*1 = m.*1.
Proof.
  induction m as [|e m IH]; simpl.
  - by intros ?%elem_of_nil.
  - intros Hin. destruct (decide (e.1 = k)) as [|Hne]; simpl; [done|].
    f_equal. apply IH. apply elem_of_cons in Hin as [?|?]; [|done].
    by destruct Hne.
Qed.

Lemma Map_set_keys k k' v m : k' ∈ (Map_set k v m).*1 ↔ k' = k ∨ k' ∈ m.*1.
Proof.
  destruct (decide (k ∈ m.*1)) as [Hin|Hnin].
  - rewrite Map_set_keys_present by done.
    split; [by right|]. by intros [->|?].
  - rewrite Map_set_fresh by done.
    rewrite fmap_app, elem_of_app. simpl.
    rewrite list_elem_of_singleton. tauto.
Qed.

Lemma Map_set_NoDup k v m : NoDup m.*1 → NoDup (Map_set k v m).*1.
Proof.
  intros Hnd. destruct (decide (k ∈ m.*1)) as [Hin|Hnin].
  - by rewrite Map_set_keys_present.
  - rewrite Map_set_fresh by done. rewrite fmap_app. simpl.
    apply NoDup_app. split_and!; [done| |apply NoDup_singleton].
    intros x Hx ->%list_elem_of_singleton. done.
Qed.

(** Two maps with the same keys in the same order, none twice, and
    the same value at each key are the same list of entries. *)
Lemma Map_ext m1 m2 :
  m1.*1 = m2.*1 → NoDup m1.*1 →
  (∀ k, Map_get k m1 = Map_get k m2) → m1 = m2.
Proof.
  revert m2. induction m1 as [|[k1 v1] m1 IH]; intros [|[k2 v2] m2];
    simpl; try done.
  intros [= -> Hkeys] [Hnin Hnd]%NoDup_cons Hget.
  pose proof (Hget k2) as Hk. simpl in Hk.
  destruct (decide (k2 = k2)); [|done]. injection Hk as ->.
  f_equal. apply IH; [done..|].
  intros k. specialize (Hget k). simpl in Hget.
  destruct (decide (k2 = k)) as [<-|]; [|done].
  assert (m1.*1 = m2.*1) as Hkeys' by exact Hkeys.
  transitivity (@None V); [|symmetry]; apply Map_get_None; [done|].
  by rewrite <- Hkeys'.
Qed.

Lemma fold_Map_set_fresh (es acc : list (string * V)) :
  NoDup (acc ++ es).*1 →
  fold_left (λ m e, Map_set e.1 e.2 m) es acc = acc ++ es.
Proof.
  revert acc. induction es as [|[k v] es IH]; intros acc Hnd; simpl.
  - by rewrite app_nil_r.
  - assert (k ∉ acc.*1) as Hfresh.
    { rewrite fmap_app in Hnd. apply NoDup_app in Hnd as (_ & Hdis & _).
      intros Hin. apply (Hdis k Hin). simpl. apply elem_of_cons. by left. }
    rewrite Map_set_fresh by done.
    rewrite IH; rewrite <- app_assoc; done.
Qed.

(** An entry list without a repeated key is its own map. *)
Lemma Map_new_NoDup (es : list (string * V)) :
  NoDup es.*1 → Map_new es = es.
Proof. intros Hnd. unfold Map_new. by rewrite fold_Map_set_fresh. Qed.

Lemma fold_Map_set_keys (es acc : list (string * V)) k :
  k ∈ (fold_left (λ m e, Map_set e.1 e.2 m) es acc).*1 ↔
  k ∈ acc.*1 ∨ k ∈ es.*1.
Proof.
  revert acc. induction es as [|e es IH]; intros acc; simpl.
  - rewrite elem_of_nil. tauto.
  - rewrite IH, Map_set_keys, elem_of_cons. tauto.
Qed.

Lemma Map_new_keys (es : list (string * V)) k :
  k ∈ (Map_new es).*1 ↔ k ∈ es.*1.
Proof.
  unfold Map_new. rewrite fold_Map_set_keys. simpl.
  rewrite elem_of_nil. tauto.
Qed.

Lemma fold_Map_set_NoDup (es acc : list (string * V)) :
  NoDup acc.*1 → NoDup (fold_left (λ m e, Map_set e.1 e.2 m) es acc).*1.
Proof.
  revert acc. induction es as [|e es IH]; intros acc Hnd; simpl; [done|].
  by apply IH, Map_set_NoDup.
Qed.

Lemma Map_new_keys_NoDup (es : list (string * V)) : NoDup (Map_new es).*1.
Proof. apply fold_Map_set_NoDup. simpl. apply NoDup_nil_2. Qed.
End JsMapFacts.

(** ** The tracked aircraft *)

Section ReconcilerFacts.
Context {num : Type}.
Implicit Types (p s : Plane num) (ps data prev : list (Plane num)).
Implicit Types (m : list (string * Plane num)) (h k : string).
Implicit Types (hs : gset string).

Lemma with_active_idem p b b' :
  with_active (with_active p b) b' = with_active p b'.
Proof. done. Qed.

Lemma last_with_hex_None h data :
  last_with_hex h data = None ↔ h ∉ hex <$> data.
Proof.
  induction data as [|p data IH]; simpl.
  - split; [intros _; apply not_elem_of_nil | done].
  - rewrite not_elem_of_cons, <- IH.
    destruct (last_with_hex h data); [intuition congruence|].
    destruct (decide (hex p = h)); intuition congruence.
Qed.

Lemma last_with_hex_Some h data s :
  last_with_hex h data = Some s → hex s = h ∧ s ∈ data.
Proof.
  induction data as [|p data IH]; simpl; [done|].
  destruct (last_with_hex h data) as [q|].
  - intros [= <-]. destruct IH as [? ?]; [done|].
    split; [done|]. by apply elem_of_cons; right.
  - destruct (decide (hex p = h)); [|done].
    intros [= <-]. split; [done|]. by apply elem_of_cons; left.
Qed.

Lemma last_with_hex_app h data1 data2 :
  last_with_hex h (data1 ++ data2) =
  match last_with_hex h data2 with
  | Some s => Some s
  | None => last_with_hex h data1
  end.
Proof.
  induction data1 as [|p data1 IH]; simpl.
  - by destruct (last_with_hex h data2).
  - rewrite IH. by destruct (last_with_hex h data2).
Qed.

(** *** Maps whose entries stand under their own hex *)

Lemma keyed_Map_set k p m : hex p = k → keyed m → keyed (Map_set k p m).
Proof.
  intros Hk. unfold keyed. induction m as [|e m IH]; simpl; intros Hm.
  - by apply Forall_cons.
  - apply Forall_cons in Hm as [He Hm].
    destruct (decide (e.1 = k)); apply Forall_cons; simpl; auto.
    split; [congruence | done].
Qed.

Lemma keyed_tracked h m : keyed m → tracked h (Map_values m) = Map_get h m.
Proof.
  unfold keyed, Map_values. induction m as [|e m IH]; simpl; [done|].
  intros [He Hm]%Forall_cons. rewrite He.
  destruct (decide (e.1 = h)); [done|]. by apply IH.
Qed.

Lemma keyed_hexes m : keyed m → hex <$> Map_values m = m.*1.
Proof.
  unfold keyed, Map_values. induction m as [|e m IH]; simpl; [done|].
  intros [He Hm]%Forall_cons. f_equal; [done|]. by apply IH.
Qed.

Lemma keyed_entries m : keyed m → (λ p, (hex p, p)) <$> Map_values m = m.
Proof.
  unfold keyed, Map_values. induction m as [|[k p] m IH]; simpl; [done|].
  intros [He Hm]%Forall_cons. simpl in He. f_equal; [by rewrite He|].
  by apply IH.
Qed.

Lemma keyed_entries_of ps : keyed ((λ p, (hex p, p)) <$> ps).
Proof. unfold keyed. induction ps; simpl; by constructor. Qed.

Lemma keyed_fold_Map_set (es acc : list (string * Plane num)) :
  keyed es → keyed acc → keyed (fold_left (λ m e, Map_set e.1 e.2 m) es acc).
Proof.
  revert acc. induction es as [|e es IH]; intros acc Hes Hacc; simpl; [done|].
  apply Forall_cons in Hes as [He Hes].
  apply IH; [done|]. by apply keyed_Map_set.
Qed.

(** *** The loop over the batch *)

Lemma upsert_get data m h :
  Map_get h (fold_left upsert data m) =
  match last_with_hex h data with
  | Some s => Some (with_active s true)
  | None => Map_get h m
  end.
Proof.
  revert m. induction data as [|p data IH]; intros m; simpl; [done|].
  rewrite IH. destruct (last_with_hex h data); [done|].
  unfold upsert. rewrite Map_get_set. simpl.
  by destruct (decide (hex p = h)).
Qed.

Lemma upsert_keys data m k :
  k ∈ (fold_left upsert data m).*1 ↔ k ∈ m.*1 ∨ k ∈ hex <$> data.
Proof.
  revert m. induction data as [|p data IH]; intros m; simpl.
  - rewrite elem_of_nil. tauto.
  - rewrite IH. unfold upsert. rewrite Map_set_keys, elem_of_cons. tauto.
Qed.

Lemma upsert_keys_present data m :
  (∀ k, k ∈ hex <$> data → k ∈ m.*1) → (fold_left upsert data m).*1 = m.*1.
Proof.
  revert m. induction data as [|p data IH]; intros m Hsub; simpl; [done|].
  assert (hex p ∈ m.*1) as Hp.
  { apply Hsub. simpl. apply elem_of_cons. by left. }
  rewrite IH; unfold upsert; rewrite Map_set_keys_present by done; [done|].
  intros k Hk. apply Hsub. simpl. apply elem_of_cons. by right.
Qed.

Lemma upsert_NoDup data m :
  NoDup m.*1 → NoDup (fold_left upsert data m).*1.
Proof.
  revert m. induction data as [|p data IH]; intros m Hnd; simpl; [done|].
  by apply IH, Map_set_NoDup.
Qed.

Lemma upsert_keyed data m : keyed m → keyed (fold_left upsert data m).
Proof.
  revert m. induction data as [|p data IH]; intros m Hm; simpl; [done|].
  apply IH. by apply keyed_Map_set.
Qed.

(** *** The loop that marks the planes the batch does not hold *)

Lemma mark_absent_get hs (es acc : list (string * Plane num)) h :
  NoDup es.*1 →
  Map_get h (fold_left (mark_absent hs) es acc) =
  match Map_get h es with
  | Some p =>
      if decide (h ∈ hs) then Map_get h acc else Some (with_active p false)
  | None => Map_get h acc
  end.
Proof.
  revert acc. induction es as [|e es IH]; intros acc; simpl; [done|].
  intros [Hnin Hnd]%NoDup_cons. rewrite IH by done.
  destruct (decide (e.1 = h)) as [<-|Hne].
  - apply Map_get_None in Hnin. rewrite Hnin.
    unfold mark_absent. destruct (decide (e.1 ∈ hs)); [done|].
    rewrite Map_get_set. by destruct (decide (e.1 = e.1)).
  - assert (Map_get h (mark_absent hs acc e) = Map_get h acc) as ->; [|done].
    unfold mark_absent. destruct (decide (e.1 ∈ hs)); [done|].
    rewrite Map_get_set. by destruct (decide (e.1 = h)).
Qed.

Lemma mark_absent_keys hs (es acc : list (string * Plane num)) :
  (∀ k, k ∈ es.*1 → k ∈ acc.*1) →
  (fold_left (mark_absent hs) es acc).*1 = acc.*1.
Proof.
  revert acc. induction es as [|e es IH]; intros acc Hsub; simpl; [done|].
  assert ((mark_absent hs acc e).*1 = acc.*1) as Hstep.
  { unfold mark_absent. destruct (decide (e.1 ∈ hs)); [done|].
    apply Map_set_keys_present, Hsub. simpl. apply elem_of_cons. by left. }
  rewrite IH; [done|]. intros k Hk. rewrite Hstep. apply Hsub.
  simpl. apply elem_of_cons. by right.
Qed.

Lemma mark_absent_keyed hs (es acc : list (string * Plane num)) :
  keyed es → keyed acc → keyed (fold_left (mark_absent hs) es acc).
Proof.
  revert acc. induction es as [|e es IH]; intros acc Hes Hacc; simpl; [done|].
  apply Forall_cons in Hes as [He Hes]. apply IH; [done|].
  unfold mark_absent. destruct (decide (e.1 ∈ hs)); [done|].
  by apply keyed_Map_set.
Qed.

(** *** The map the updater of [setPlanes] returns *)

Lemma entries_keys ps : ((λ p, (hex p, p)) <$> ps).*1 = hex <$> ps.
Proof. induction ps as [|p ps IH]; simpl; [done|]. by f_equal. Qed.

Lemma entries_get h ps : Map_get h ((λ p, (hex p, p)) <$> ps) = tracked h ps.
Proof.
  induction ps as [|p ps IH]; simpl; [done|].
  by destruct (decide (hex p = h)).
Qed.

Lemma planeMap_keyed data prev : keyed (planeMap_of data prev).
Proof.
  unfold planeMap_of.
  assert (keyed (fold_left upsert data
                   (Map_new ((λ p, (hex p, p)) <$> prev)))) as Hk.
  { apply upsert_keyed, keyed_fold_Map_set; [apply keyed_entries_of|].
    apply Forall_nil_2. }
  by apply mark_absent_keyed.
Qed.

Lemma planeMap_keys_eq data prev :
  (planeMap_of data prev).*1 =
  (fold_left upsert data (Map_new ((λ p, (hex p, p)) <$> prev))).*1.
Proof. unfold planeMap_of. by apply mark_absent_keys. Qed.

Lemma planeMap_NoDup data prev : NoDup (planeMap_of data prev).*1.
Proof.
  rewrite planeMap_keys_eq. apply upsert_NoDup, Map_new_keys_NoDup.
Qed.

Lemma planeMap_keys data prev k :
  k ∈ (planeMap_of data prev).*1 ↔ k ∈ hex <$> prev ∨ k ∈ hex <$> data.
Proof.
  by rewrite planeMap_keys_eq, upsert_keys, Map_new_keys, entries_keys.
Qed.

Lemma planeMap_get data prev h :
  Map_get h (planeMap_of data prev) =
  match last_with_hex h data with
  | Some s => Some (with_active s true)
  | None =>
      (λ p, with_active p false) <$>
        Map_get h (Map_new ((λ p, (hex p, p)) <$> prev))
  end.
Proof.
  unfold planeMap_of.
  rewrite mark_absent_get by apply upsert_NoDup, Map_new_keys_NoDup.
  rewrite upsert_get.
  destruct (last_with_hex h data) as [s|] eqn:Hlast.
  - apply last_with_hex_Some in Hlast as [Hs Hin].
    destruct (decide (h ∈ (list_to_set (hex <$> data) : gset string)))
      as [|Hn]; [done|].
    destruct Hn. apply elem_of_list_to_set, list_elem_of_fmap. eauto.
  - apply last_with_hex_None in Hlast.
    destruct (Map_get h _) as [p|]; simpl; [|done].
    destruct (decide (h ∈ (list_to_set (hex <$> data) : gset string)))
      as [Hy|]; [|done].
    by apply elem_of_list_to_set in Hy.
Qed.

Lemma setPlanes_tracked data prev h :
  tracked h (setPlanes data prev) =
  match last_with_hex h data with
  | Some s => Some (with_active s true)
  | None =>
      (λ p, with_active p false) <$>
        Map_get h (Map_new ((λ p, (hex p, p)) <$> prev))
  end.
Proof.
  unfold setPlanes. rewrite keyed_tracked by apply planeMap_keyed.
  apply planeMap_get.
Qed.

Lemma setPlanes_hexes data prev h :
  h ∈ hex <$> setPlanes data prev ↔ h ∈ hex <$> prev ∨ h ∈ hex <$> data.
Proof.
  unfold setPlanes. rewrite keyed_hexes by apply planeMap_keyed.
  apply planeMap_keys.
Qed.

(** The invariant of the tracked array, kept by every update. *)
Lemma setPlanes_one_per_hex data prev : one_per_hex (setPlanes data prev).
Proof.
  unfold one_per_hex, setPlanes. rewrite keyed_hexes by apply planeMap_keyed.
  apply planeMap_NoDup.
Qed.

Lemma one_per_hex_get h prev :
  one_per_hex prev →
  Map_get h (Map_new ((λ p, (hex p, p)) <$> prev)) = tracked h prev.
Proof.
  intros Hnd. rewrite Map_new_NoDup by by rewrite entries_keys.
  apply entries_get.
Qed.

(** Applying a batch a second time changes nothing in the array. *)
Lemma setPlanes_idem data prev :
  setPlanes data (setPlanes data prev) = setPlanes data prev.
Proof.
  unfold setPlanes. f_equal.
  set (m := planeMap_of data prev).
  assert (keyed m) as Hkeyed by apply planeMap_keyed.
  assert (NoDup m.*1) as Hnd by apply planeMap_NoDup.
  assert (∀ k, k ∈ hex <$> data → k ∈ m.*1) as Hsub.
  { intros k Hk. apply planeMap_keys. by right. }
  unfold planeMap_of at 1.
  rewrite keyed_entries, Map_new_NoDup by done.
  assert ((fold_left (mark_absent (list_to_set (hex <$> data)))
             (fold_left upsert data m) (fold_left upsert data m)).*1 = m.*1)
    as Hkeys.
  { rewrite mark_absent_keys by done. by apply upsert_keys_present. }
  apply Map_ext; [done|by rewrite Hkeys|].
  intros h. rewrite mark_absent_get by by apply upsert_NoDup.
  rewrite upsert_get. unfold m. rewrite planeMap_get.
  destruct (last_with_hex h data) as [s|] eqn:Hlast.
  - apply last_with_hex_Some in Hlast as [Hs Hin].
    destruct (decide (h ∈ (list_to_set (hex <$> data) : gset string)))
      as [|Hn]; [done|].
    destruct Hn. apply elem_of_list_to_set, list_elem_of_fmap. eauto.
  - apply last_with_hex_None in Hlast.
    destruct (Map_get h _) as [p|]; simpl; [|done].
    destruct (decide (h ∈ (list_to_set (hex <$> data) : gset string)))
      as [Hy|]; [|done].
    by apply elem_of_list_to_set in Hy.
Qed.
End ReconcilerFacts.

(** ** The trails *)

Section TrailFacts.
Context {num : Type}.
Implicit Types (p s : Plane num) (data : list (Plane num)).
Implicit Types (batches : list (list (Plane num))) (st : State num).
Implicit Types (tr : gmap string (list (num * num))) (h : string).

Lemma points_cons h p data :
  points h (p :: data) =
  if decide (hex p = h) then (lat p, lon p) :: points h data
  else points h data.
Proof.
  unfold points, with_hex. rewrite filter_cons.
  by destruct (decide (hex p = h)).
Qed.

Lemma points_absent h data : h ∉ hex <$> data → points h data = [].
Proof.
  induction data as [|p data IH]; [done|]. simpl.
  rewrite not_elem_of_cons. intros [Hne Hnin]. rewrite points_cons.
  destruct (decide (hex p = h)); [congruence|]. by apply IH.
Qed.

Lemma points_length h data :
  length (points h data) = length (with_hex h data).
Proof. unfold points. apply length_fmap. Qed.

(** A batch that holds each hex once records one point for it. *)
Lemma points_once h data :
  NoDup (hex <$> data) → points h data = option_list (point_in h data).
Proof.
  unfold point_in. induction data as [|p data IH]; [done|]. simpl.
  intros [Hnin Hnd]%NoDup_cons. rewrite points_cons.
  destruct (decide (hex p = h)) as [<-|Hne].
  - rewrite points_absent by done.
    apply last_with_hex_None in Hnin. by rewrite Hnin.
  - rewrite IH by done. by destruct (last_with_hex h data).
Qed.

Lemma point_in_is_Some h data : is_Some (point_in h data) ↔ h ∈ hex <$> data.
Proof.
  unfold point_in. rewrite fmap_is_Some.
  rewrite <- not_eq_None_Some, last_with_hex_None.
  split; [apply dec_stable | auto].
Qed.

(** *** One turn of the trail loop *)

Lemma Object_get_Own tr h l : tr !! h = Some l → Object_get tr h = Own l.
Proof. unfold Object_get. by intros ->. Qed.

Lemma Object_get_plain tr h :
  tr !! h = None → h ∉ Object_prototype_keys → Object_get tr h = Undefined.
Proof.
  unfold Object_get. intros -> Hplain.
  by destruct (decide (h ∈ Object_prototype_keys)).
Qed.

Lemma Object_get_Inherited tr h :
  tr !! h = None → h ∈ Object_prototype_keys → Object_get tr h = Inherited.
Proof.
  unfold Object_get. intros -> Hproto.
  by destruct (decide (h ∈ Object_prototype_keys)).
Qed.

(** The turn throws when the hex names a member of [Object.prototype]
    and the record has no trail of its own under it. *)
Lemma trail_step_None tr p :
  trail_step tr p = None ↔
  hex p ∈ Object_prototype_keys ∧ tr !! hex p = None.
Proof.
  unfold trail_step.
  destruct (tr !! hex p) as [l|] eqn:Hl.
  - rewrite (Object_get_Own _ _ _ Hl), (Object_get_Own _ _ _ Hl).
    split; [done|]. by intros [_ ?].
  - destruct (decide (hex p ∈ Object_prototype_keys)) as [Hproto|Hplain].
    + rewrite (Object_get_Inherited _ _ Hl Hproto).
      by rewrite (Object_get_Inherited _ _ Hl Hproto).
    + rewrite (Object_get_plain _ _ Hl Hplain).
      rewrite (Object_get_Own _ _ []) by apply lookup_insert_eq.
      split; [done|]. by intros [? _].
Qed.

(** Otherwise it puts the new point at the end of the trail of the hex. *)
Lemma trail_step_Some tr p :
  hex p ∉ Object_prototype_keys ∨ is_Some (tr !! hex p) →
  trail_step tr p = Some (append_point tr p).
Proof.
  unfold trail_step, append_point.
  destruct (tr !! hex p) as [l|] eqn:Hl.
  - intros _. by rewrite (Object_get_Own _ _ _ Hl), (Object_get_Own _ _ _ Hl).
  - intros [Hplain|[? ?]]; [|done].
    rewrite (Object_get_plain _ _ Hl Hplain).
    rewrite (Object_get_Own _ _ []) by apply lookup_insert_eq.
    by rewrite insert_insert_eq.
Qed.

Lemma trail_step_cases tr p :
  trail_step tr p = None ∨ trail_step tr p = Some (append_point tr p).
Proof.
  destruct (tr !! hex p) as [l|] eqn:Hl.
  - right. apply trail_step_Some. right. by rewrite Hl.
  - destruct (decide (hex p ∈ Object_prototype_keys)).
    + left. by apply trail_step_None.
    + right. apply trail_step_Some. by left.
Qed.

Lemma append_point_lookup tr p h :
  append_point tr p !! h =
  if decide (hex p = h)
  then Some (default [] (tr !! h) ++ [(lat p, lon p)])
  else tr !! h.
Proof.
  unfold append_point. destruct (decide (hex p = h)) as [<-|Hne].
  - by rewrite lookup_insert_eq.
  - by rewrite lookup_insert_ne.
Qed.

(** *** The updater of [setPlaneTrails] *)

Lemma setPlaneTrails_cons p data tr :
  setPlaneTrails (p :: data) tr = trail_step tr p ≫= setPlaneTrails data.
Proof.
  unfold setPlaneTrails. cbn [fold_left mbind option_bind].
  destruct (trail_step tr p) as [tr'|]; [done|]. simpl.
  induction data as [|q data IH]; [done|]. exact IH.
Qed.

(** The updater throws exactly when the batch holds a hex that names a
    member of [Object.prototype] and has no trail yet. *)
Lemma setPlaneTrails_None data tr :
  setPlaneTrails data tr = None ↔
  ∃ p, p ∈ data ∧ hex p ∈ Object_prototype_keys ∧ tr !! hex p = None.
Proof.
  revert tr. induction data as [|p data IH]; intros tr.
  - split; [done|]. by intros (? & ?%elem_of_nil & _).
  - rewrite setPlaneTrails_cons.
    destruct (trail_step_cases tr p) as [Hstep|Hstep].
    + rewrite Hstep. simpl. split; [intros _|done].
      apply trail_step_None in Hstep as [? ?].
      exists p. split; [by left|done].
    + rewrite Hstep. simpl. rewrite IH.
      assert (¬ (hex p ∈ Object_prototype_keys ∧ tr !! hex p = None))
        as Hok.
      { intros Hthrow%trail_step_None. congruence. }
      split.
      * intros (q & Hq & Hproto & Hnone). exists q.
        rewrite append_point_lookup in Hnone.
        destruct (decide (hex p = hex q)); [done|].
        split; [by right|done].
      * intros (q & [->|Hq]%elem_of_cons & Hproto & Hnone); [tauto|].
        exists q. split_and!; [done..|].
        rewrite append_point_lookup.
        destruct (decide (hex p = hex q)) as [Heq|]; [|done].
        destruct Hok. by rewrite Heq.
Qed.

(** A batch of plain hexes never makes it throw. *)
Lemma setPlaneTrails_plain data tr :
  plain_hexes data → is_Some (setPlaneTrails data tr).
Proof.
  intros Hplain. apply not_eq_None_Some.
  intros (p & Hp & Hproto & _)%setPlaneTrails_None.
  unfold plain_hexes in Hplain. rewrite Forall_forall in Hplain.
  by apply (Hplain p).
Qed.

(** When it returns, the trail of a hex of the batch has gained the
    points of the batch, and no other trail has changed. *)
Lemma setPlaneTrails_lookup data tr tr' h :
  setPlaneTrails data tr = Some tr' →
  tr' !! h =
  if decide (h ∈ hex <$> data)
  then Some (default [] (tr !! h) ++ points h data)
  else tr !! h.
Proof.
  revert tr. induction data as [|p data IH]; intros tr.
  - intros [= <-]. destruct (decide (h ∈ hex <$> [])) as [Hin|]; [|done].
    by apply elem_of_nil in Hin.
  - rewrite setPlaneTrails_cons.
    destruct (trail_step_cases tr p) as [Hstep|Hstep]; rewrite Hstep;
      [done|]. cbn [mbind option_bind].
    intros Hrest. rewrite (IH _ Hrest), append_point_lookup, points_cons.
    rewrite fmap_cons.
    destruct (decide (hex p = h)) as [Hp|Hp];
      destruct (decide (h ∈ hex <$> data)) as [Hd|Hd];
      destruct (decide (h ∈ hex p :: (hex <$> data))) as [Hc|Hc];
      simpl; try done.
    + by rewrite <- app_assoc.
    + destruct Hc. apply elem_of_cons. by right.
    + rewrite points_absent by done. done.
    + destruct Hc. apply elem_of_cons. by left.
    + destruct Hc. apply elem_of_cons. by right.
    + apply elem_of_cons in Hc as [?|?]; [congruence|done].
Qed.

(** A batch without the hex leaves the trail entry as it is. *)
Lemma setPlaneTrails_absent data tr tr' h :
  setPlaneTrails data tr = Some tr' → h ∉ hex <$> data → tr' !! h = tr !! h.
Proof.
  intros Hret Hnin. rewrite (setPlaneTrails_lookup _ _ _ _ Hret).
  by destruct (decide (h ∈ hex <$> data)).
Qed.

Lemma setPlaneTrails_is_Some data tr tr' h :
  setPlaneTrails data tr = Some tr' →
  is_Some (tr' !! h) ↔ is_Some (tr !! h) ∨ h ∈ hex <$> data.
Proof.
  intros Hret. rewrite (setPlaneTrails_lookup _ _ _ _ Hret).
  destruct (decide (h ∈ hex <$> data)); [|tauto].
  split; [by right|]. intros _. eauto.
Qed.

(** *** The trails of a state *)

(** Once the updater has thrown, the component is gone for good. *)
Lemma update_unmounted data st :
  planeTrails st = None → planeTrails (update data st) = None.
Proof. unfold update. simpl. by intros ->. Qed.

Lemma poll_unmounted batches st :
  planeTrails st = None → planeTrails (poll batches st) = None.
Proof.
  unfold poll. revert st.
  induction batches as [|data batches IH]; intros st Hst; [done|].
  cbn [fold_left]. apply IH. by apply update_unmounted.
Qed.

Lemma update_mounted data st :
  is_Some (planeTrails (update data st)) →
  ∃ tr tr', planeTrails st = Some tr ∧ setPlaneTrails data tr = Some tr' ∧
            planeTrails (update data st) = Some tr'.
Proof.
  unfold update. simpl. destruct (planeTrails st) as [tr|]; simpl.
  - intros [tr' Hret]. by exists tr, tr'.
  - by intros [? ?].
Qed.

Lemma update_plain data st :
  plain_hexes data → is_Some (planeTrails st) →
  is_Some (planeTrails (update data st)).
Proof.
  intros Hplain [tr Htr]. unfold update. simpl. rewrite Htr. simpl.
  by apply setPlaneTrails_plain.
Qed.

Lemma poll_plain batches st :
  Forall plain_hexes batches → is_Some (planeTrails st) →
  is_Some (planeTrails (poll batches st)).
Proof.
  unfold poll. revert st.
  induction batches as [|data batches IH]; intros st Hplain Hst; [done|].
  apply Forall_cons in Hplain as [Hd Hb]. cbn [fold_left].
  apply IH; [done|]. by apply update_plain.
Qed.

(** An update that does not throw appends the points of the batch, and
    nothing else. *)
Lemma update_trail data st h :
  is_Some (planeTrails (update data st)) →
  trail h (update data st) = trail h st ++ points h data.
Proof.
  intros (tr & tr' & Htr & Hret & Hupd)%update_mounted.
  unfold trail. rewrite Hupd, Htr. simpl.
  rewrite (setPlaneTrails_lookup _ _ _ _ Hret).
  destruct (decide (h ∈ hex <$> data)); [done|].
  rewrite points_absent by done. by rewrite app_nil_r.
Qed.

Lemma poll_mounted_update data batches st :
  is_Some (planeTrails (poll (data :: batches) st)) →
  is_Some (planeTrails (update data st)).
Proof.
  intros Hend. apply not_eq_None_Some. intros Hnone.
  apply (poll_unmounted batches) in Hnone.
  change (poll (data :: batches) st) with (poll batches (update data st))
    in Hend.
  rewrite Hnone in Hend. by destruct Hend.
Qed.

Lemma poll_trail batches st h :
  is_Some (planeTrails (poll batches st)) →
  trail h (poll batches st) = trail h st ++ concat (points h <$> batches).
Proof.
  revert st.
  induction batches as [|data batches IH]; intros st Hend; csimpl.
  - by rewrite app_nil_r.
  - pose proof (poll_mounted_update _ _ _ Hend) as Hupd.
    change (poll (data :: batches) st) with (poll batches (update data st))
      in *.
    by rewrite IH, update_trail, <- app_assoc.
Qed.

Lemma points_run_once batches h :
  Forall (λ data, NoDup (hex <$> data)) batches →
  concat (points h <$> batches) = omap (point_in h) batches.
Proof.
  induction batches as [|data batches IH]; [done|].
  intros [Hd Hb]%Forall_cons. csimpl.
  rewrite IH, points_once by done.
  by destruct (point_in h data).
Qed.

Lemma omap_point_in_length batches h :
  length (omap (point_in h) batches) = length (batches_with h batches).
Proof.
  unfold batches_with. induction batches as [|data batches IH]; [done|].
  rewrite filter_cons. csimpl.
  pose proof (point_in_is_Some h data) as Hsome.
  destruct (decide (h ∈ hex <$> data)) as [Hin|Hnin].
  - apply Hsome in Hin as [pt ->]. simpl. by f_equal.
  - destruct (point_in h data) as [pt|]; [|done].
    destruct Hnin. apply Hsome. eauto.
Qed.

Lemma poll_hexes batches st h :
  h ∈ hex <$> planes (poll batches st) ↔
  h ∈ hex <$> planes st ∨ ∃ data, data ∈ batches ∧ h ∈ hex <$> data.
Proof.
  unfold poll. revert st.
  induction batches as [|data batches IH]; intros st; simpl.
  - split; [by left|]. intros [?|(? & []%elem_of_nil & _)]; done.
  - rewrite IH. simpl. rewrite setPlanes_hexes. split.
    + intros [[?|?]|(d & ? & ?)]; [by left|right..].
      * exists data. split; [apply elem_of_cons; by left|done].
      * exists d. split; [apply elem_of_cons; by right|done].
    + intros [?|(d & [->|?]%elem_of_cons & ?)].
      * left. by left.
      * left. by right.
      * right. by exists d.
Qed.
End TrailFacts.

(** * The reconciliation, claim by claim *)

Lemma with_hex_once {num : Type} (data : list (Plane num)) (h : string) :
  NoDup (hex <$> data) → h ∈ hex <$> data → length (with_hex h data) = 1.
Proof.
  intros Hnd Hin. rewrite <- points_length, points_once by done.
  apply point_in_is_Some in Hin as [pt ->]. done.
Qed.

Lemma update_tracked_present {num : Type} (st : State num)
    (data : list (Plane num)) (h : string) (s : Plane num) :
  last_with_hex h data = Some s →
  tracked h (planes (update data st)) = Some (with_active s true).
Proof. intros Hlast. simpl. by rewrite setPlanes_tracked, Hlast. Qed.

Lemma last_with_hex_present {num : Type} (data : list (Plane num)) (h : string) :
  h ∈ hex <$> data → ∃ s, last_with_hex h data = Some s.
Proof.
  intros Hin. destruct (last_with_hex h data) as [s|] eqn:Hlast; [eauto|].
  by apply last_with_hex_None in Hlast.
Qed.

(** Every state a run of polls reaches has one aircraft per hex. *)
Lemma poll_one_per_hex {num : Type} (batches : list (list (Plane num)))
    (st : State num) :
  one_per_hex (planes st) → one_per_hex (planes (poll batches st)).
Proof.
  unfold poll. revert st.
  induction batches as [|data batches IH]; intros st Hone; simpl; [done|].
  apply IH. simpl. apply setPlanes_one_per_hex.
Qed.

Lemma init_one_per_hex {num : Type} : one_per_hex (planes (@init num)).
Proof. apply NoDup_nil_2. Qed.

(** The scenario of the specification: A1 is seen, is missed by an empty
    batch, and is seen again. *)
Example scenario_seen_missed_seen :
  planes (poll [[A1_at 40]] init) = [with_active (A1_at 40) true] ∧
  trail "A1" (poll [[A1_at 40]] init) = [(40, -75)]%float ∧
  planes (poll [[A1_at 40]; []] init) = [with_active (A1_at 40) false] ∧
  trail "A1" (poll [[A1_at 40]; []] init) = [(40, -75)]%float ∧
  planes (poll [[A1_at 40]; []; [A1_at 40.5]] init) =
    [with_active (A1_at 40.5) true] ∧
  trail "A1" (poll [[A1_at 40]; []; [A1_at 40.5]] init) =
    [(40, -75); (40.5, -75)]%float.
Proof. by split_and!. Qed.

(** C1.  Whatever was tracked before, every hex of the batch is tracked
    after [update] with [active = true], and its flight, lat, lon,
    altitude, track and speed are those of the snapshot the batch holds
    for it (the last one in input order, should the hex occur twice). *)
Theorem update_batch_entry {num : Type} (st : State num)
    (data : list (Plane num)) (h : string) :
  h ∈ hex <$> data →
  ∃ s t, last_with_hex h data = Some s ∧ s ∈ data ∧
         tracked h (planes (update data st)) = Some t ∧
         active t = true ∧ same_fields t s.
Proof.
  intros [s Hlast]%last_with_hex_present.
  exists s, (with_active s true).
  pose proof (last_with_hex_Some _ _ _ Hlast) as [_ Hin].
  split_and!; [done|done|by apply update_tracked_present|done|].
  by repeat split.
Qed.

Lemma update_batch_entry_witness :
  let st := update [A1_at 40; B2_at 39] init in
  let data := [A1_at 40.5] in
  "A1" ∈ hex <$> data ∧
  ∃ s t, last_with_hex "A1" data = Some s ∧ s ∈ data ∧
         tracked "A1" (planes (update data st)) = Some t ∧
         active t = true ∧ same_fields t s.
Proof.
  assert ("A1" ∈ hex <$> [A1_at 40.5]) as Hin by (simpl; constructor).
  split; [exact Hin|].
  exact (update_batch_entry (update [A1_at 40; B2_at 39] init)
           [A1_at 40.5] "A1" Hin).
Defined.

(** C2.  A hex that is tracked, in a state with one aircraft per hex, and
    that the batch does not hold is tracked after [update] with
    [active = false] and with every other field as it was. *)
Theorem update_absent_entry {num : Type} (st : State num)
    (data : list (Plane num)) (h : string) (p : Plane num) :
  one_per_hex (planes st) →
  tracked h (planes st) = Some p →
  h ∉ hex <$> data →
  ∃ t, tracked h (planes (update data st)) = Some t ∧
       active t = false ∧ same_fields t p.
Proof.
  intros Hone Hp Hnin. exists (with_active p false). split_and!.
  - simpl. rewrite setPlanes_tracked.
    apply last_with_hex_None in Hnin. rewrite Hnin.
    by rewrite one_per_hex_get, Hp.
  - done.
  - by repeat split.
Qed.

Lemma update_absent_entry_witness :
  let st := update [A1_at 40; B2_at 39] init in
  let data := [B2_at 39.5] in
  let p := with_active (A1_at 40) true in
  one_per_hex (planes st) ∧ tracked "A1" (planes st) = Some p ∧
  ("A1" ∉ hex <$> data) ∧
  ∃ t, tracked "A1" (planes (update data st)) = Some t ∧
       active t = false ∧ same_fields t p.
Proof.
  assert (one_per_hex (planes (update [A1_at 40; B2_at 39] init))) as Hone.
  { unfold one_per_hex. compute_done. }
  assert (tracked "A1" (planes (update [A1_at 40; B2_at 39] init))
          = Some (with_active (A1_at 40) true)) as Hp by reflexivity.
  assert ("A1" ∉ hex <$> [B2_at 39.5]) as Hnin by compute_done.
  split_and!; [exact Hone|exact Hp|exact Hnin|].
  exact (update_absent_entry _ _ _ _ Hone Hp Hnin).
Defined.

(** C3.  From the empty state, the hexes tracked after a run of batches
    are exactly the hexes that occur in some batch of the run, and no
    update removes a tracked hex. *)
Theorem poll_tracks_every_hex_seen {num : Type} :
  (∀ (batches : list (list (Plane num))) (h : string),
     h ∈ hex <$> planes (poll batches init) ↔
     ∃ data, data ∈ batches ∧ h ∈ hex <$> data) ∧
  (∀ (st : State num) (data : list (Plane num)) (h : string),
     h ∈ hex <$> planes st → h ∈ hex <$> planes (update data st)).
Proof.
  split.
  - intros batches h. rewrite poll_hexes. simpl. rewrite elem_of_nil. tauto.
  - intros st data h Hin. simpl. apply setPlanes_hexes. by left.
Qed.

Lemma poll_tracks_every_hex_seen_witness :
  "A1" ∈ hex <$> planes (poll [[A1_at 40]; []] init) ∧
  "A1" ∈ hex <$> planes (update [B2_at 39] (poll [[A1_at 40]; []] init)).
Proof.
  assert ("A1" ∈ hex <$> planes (poll [[A1_at 40]; []] init)) as Hin.
  { apply (proj1 (@poll_tracks_every_hex_seen float)).
    exists [A1_at 40]. split; simpl; constructor. }
  split; [exact Hin|].
  exact (proj2 (@poll_tracks_every_hex_seen float) _ [B2_at 39] "A1" Hin).
Defined.

(** C4.  The trail updater throws on a hex that names a member of
    [Object.prototype] and has no trail yet: in a mounted component, a
    batch that holds such a snapshot makes [setPlaneTrails] throw, the
    poll ends with the component unmounted, and the hex has no trail
    point although a batch held it. *)
Theorem trail_updater_throws {num : Type} (st : State num)
    (tr : gmap string (list (num * num))) (data : list (Plane num))
    (s : Plane num) :
  planeTrails st = Some tr → tr !! hex s = None →
  s ∈ data → hex s ∈ Object_prototype_keys →
  setPlaneTrails data tr = None ∧
  fetchData (Decoded data) st =
    ({| planes := setPlanes data (planes st); planeTrails := None |},
     Unmounted) ∧
  trail (hex s) (fetchData (Decoded data) st).1 = [] ∧
  length (batches_with (hex s) [data]) = 1.
Proof.
  intros Htr Hnone Hin Hproto.
  assert (setPlaneTrails data tr = None) as Hthrow.
  { apply setPlaneTrails_None. by exists s. }
  assert (fetchData (Decoded data) st =
          ({| planes := setPlanes data (planes st); planeTrails := None |},
           Unmounted)) as Hpoll.
  { unfold fetchData, update. rewrite Htr. simpl. by rewrite Hthrow. }
  split_and!; [done|done|by rewrite Hpoll|].
  unfold batches_with. rewrite filter_cons.
  destruct (decide (hex s ∈ hex <$> data)) as [|Hnin]; [done|].
  destruct Hnin. by apply list_elem_of_fmap_2.
Qed.

Lemma trail_updater_throws_witness :
  let s := constructor_at 40 in
  Forall (λ data, NoDup (hex <$> data)) [[s]] ∧
  planeTrails (@init float) = Some ∅ ∧
  (∅ : gmap string (list (float * float))) !! "constructor" = None ∧
  s ∈ [s] ∧ "constructor" ∈ Object_prototype_keys ∧
  setPlaneTrails [s] ∅ = None ∧
  fetchData (Decoded [s]) init =
    ({| planes := [with_active s true]; planeTrails := None |}, Unmounted) ∧
  trail "constructor" (fetchData (Decoded [s]) init).1 = [] ∧
  length (batches_with "constructor" [[s]]) = 1.
Proof.
  assert (Forall (λ data : list (Plane float), NoDup (hex <$> data))
            [[constructor_at 40]]) as Honce.
  { repeat apply Forall_cons_2; [..|apply Forall_nil_2]; compute_done. }
  assert (constructor_at 40 ∈ [constructor_at 40]) as Hin by constructor.
  assert ("constructor" ∈ Object_prototype_keys) as Hproto by compute_done.
  split_and!; [exact Honce|reflexivity|reflexivity|exact Hin|exact Hproto|..];
    apply (trail_updater_throws init ∅ [constructor_at 40] (constructor_at 40)
             eq_refl eq_refl Hin Hproto).
Defined.

(** C5, counterexample.  A batch whose one snapshot has an infinite
    latitude, and one whose snapshot lacks its latitude, are applied:
    the poll logs no error, the malformed snapshot is tracked and its
    point is on the trail. *)
Lemma malformed_batch_is_applied :
  malformed A1_infinite = true ∧ malformed A1_no_lat = true ∧
  fetchData (Decoded [A1_infinite]) init ≠ (init, ErrorLogged) ∧
  fetchData (Decoded [A1_infinite]) init =
    ({| planes := [with_active A1_infinite true];
        planeTrails :=
          Some {[ "A1" := [(Some infinity, Some (-75)%float)] ]} |},
     Updated) ∧
  fetchData (Decoded [A1_no_lat]) init =
    ({| planes := [with_active A1_no_lat true];
        planeTrails := Some {[ "A1" := [(None, Some (-75)%float)] ]} |},
     Updated).
Proof.
  split_and!; [reflexivity|reflexivity|discriminate| |].
  - unfold fetchData, update. simpl. repeat f_equal.
  - unfold fetchData, update. simpl. repeat f_equal.
Qed.

(** C5, amended.  [fetchData] validates nothing: while the component is
    mounted, every decoded batch of snapshots with no hex that names a
    member of [Object.prototype], well-formed or not, is applied whole
    and no error is logged; each snapshot's hex is then tracked as
    active with the fields of the last snapshot the batch holds for it,
    as they were received, and its trail has gained the batch's points
    for it.  When the fetch or the decoding fails, the error is logged
    and the state is left as it was. *)
Theorem fetchData_validates_nothing {num : Type} (st : State num)
    (data : list (Plane num)) :
  is_Some (planeTrails st) → plain_hexes data →
  (fetchData (Decoded data) st).2 = Updated ∧
  (∀ s, s ∈ data →
     ∃ s' t, last_with_hex (hex s) data = Some s' ∧
       tracked (hex s) (planes (fetchData (Decoded data) st).1) = Some t ∧
       active t = true ∧ same_fields t s' ∧
       trail (hex s) (fetchData (Decoded data) st).1 =
         trail (hex s) st ++ points (hex s) data ∧
       (lat s, lon s) ∈ trail (hex s) (fetchData (Decoded data) st).1) ∧
  fetchData FetchFailed st = (st, ErrorLogged).
Proof.
  intros Hst Hplain.
  pose proof (update_plain data st Hplain Hst) as Hupd.
  destruct Hst as [tr Htr].
  assert ((fetchData (Decoded data) st).1 = update data st) as Hfst.
  { unfold fetchData. by rewrite Htr. }
  split_and!.
  - unfold fetchData. rewrite Htr. cbn [snd].
    by destruct Hupd as [tr' ->].
  - intros s Hs. rewrite Hfst.
    assert (hex s ∈ hex <$> data) as Hin by by apply list_elem_of_fmap_2.
    destruct (last_with_hex_present _ _ Hin) as [s' Hlast].
    exists s', (with_active s' true).
    split_and!; [done|by apply update_tracked_present|done|by repeat split
                |by apply update_trail|].
    rewrite update_trail by done. apply elem_of_app. right.
    unfold points, with_hex.
    apply (list_elem_of_fmap_2 (λ p, (lat p, lon p))).
    by apply list_elem_of_filter.
  - unfold fetchData. by rewrite Htr.
Qed.

Lemma fetchData_validates_nothing_witness :
  malformed A1_no_lat = true ∧
  is_Some (planeTrails (@init (option float))) ∧ plain_hexes [A1_no_lat] ∧
  (fetchData (Decoded [A1_no_lat]) init).2 = Updated ∧
  (∀ s, s ∈ [A1_no_lat] →
     ∃ s' t, last_with_hex (hex s) [A1_no_lat] = Some s' ∧
       tracked (hex s) (planes (fetchData (Decoded [A1_no_lat]) init).1)
         = Some t ∧
       active t = true ∧ same_fields t s' ∧
       trail (hex s) (fetchData (Decoded [A1_no_lat]) init).1 =
         trail (hex s) init ++ points (hex s) [A1_no_lat] ∧
       (lat s, lon s) ∈ trail (hex s) (fetchData (Decoded [A1_no_lat]) init).1) ∧
  fetchData FetchFailed (@init (option float)) = (init, ErrorLogged).
Proof.
  assert (is_Some (planeTrails (@init (option float)))) as Hst by by eexists.
  assert (plain_hexes [A1_no_lat]) as Hplain.
  { unfold plain_hexes. apply Forall_cons_2; [compute_done|apply Forall_nil_2]. }
  split_and!; [reflexivity|exact Hst|exact Hplain|..];
    apply (fetchData_validates_nothing init [A1_no_lat] Hst Hplain).
Defined.

(** C6, counterexample.  A batch that holds the hex A1 twice, applied
    twice to the empty state, leaves four points on the trail of A1, not
    two. *)
Lemma update_twice_duplicate_hex :
  let data := [A1_at 40; A1_at 40.5] in
  "A1" ∈ hex <$> data ∧
  length (trail "A1" (update data (update data init))) = 4 ∧
  length (trail "A1" (update data (update data init))) ≠
    length (trail "A1" (@init float)) + 2.
Proof.
  split_and!; [simpl; constructor|reflexivity|].
  intros H. vm_compute in H. discriminate H.
Qed.

(** C6, amended.  Applying a batch twice in a row leaves the tracked
    array after the second application identical to the array after the
    first, every hex of the batch still active.  When the trail updater
    threw in neither application, the trail of a hex has then gained two
    points for each snapshot the batch holds for it, which is exactly two
    points when the batch holds the hex once; and it throws in neither
    when the component is mounted and no hex of the batch names a member
    of [Object.prototype]. *)
Theorem update_twice {num : Type} (st : State num) (data : list (Plane num)) :
  planes (update data (update data st)) = planes (update data st) ∧
  (∀ h, h ∈ hex <$> data →
     ∃ t, tracked h (planes (update data (update data st))) = Some t ∧
          active t = true) ∧
  (is_Some (planeTrails (update data (update data st))) →
     (∀ h, length (trail h (update data (update data st))) =
           length (trail h st) + 2 * length (with_hex h data)) ∧
     (∀ h, NoDup (hex <$> data) → h ∈ hex <$> data →
        length (trail h (update data (update data st))) =
        length (trail h st) + 2)) ∧
  (is_Some (planeTrails st) → plain_hexes data →
     is_Some (planeTrails (update data (update data st)))).
Proof.
  split_and!.
  - simpl. apply setPlanes_idem.
  - intros h [s Hlast]%last_with_hex_present.
    exists (with_active s true). split; [|done].
    by apply update_tracked_present.
  - intros Hsnd.
    assert (is_Some (planeTrails (update data st))) as Hfst.
    { apply not_eq_None_Some. intros Hnone.
      apply (update_unmounted data) in Hnone. rewrite Hnone in Hsnd.
      by destruct Hsnd. }
    assert (∀ h, length (trail h (update data (update data st))) =
                 length (trail h st) + 2 * length (with_hex h data)) as Hlen.
    { intros h. rewrite !update_trail, !length_app, points_length by done.
      lia. }
    split; [exact Hlen|].
    intros h Hnd Hin. rewrite Hlen, with_hex_once by done. lia.
  - intros Hst Hplain. apply update_plain; [done|]. by apply update_plain.
Qed.

Lemma update_twice_witness :
  let st := update [A1_at 40] init in
  let data := [A1_at 40.5; B2_at 39] in
  is_Some (planeTrails st) ∧ plain_hexes data ∧
  is_Some (planeTrails (update data (update data st))) ∧
  NoDup (hex <$> data) ∧ "B2" ∈ hex <$> data ∧
  length (trail "B2" (update data (update data st))) =
  length (trail "B2" st) + 2.
Proof.
  assert (is_Some (planeTrails (update [A1_at 40] init))) as Hst
    by by eexists.
  assert (plain_hexes [A1_at 40.5; B2_at 39]) as Hplain.
  { unfold plain_hexes.
    repeat apply Forall_cons_2; [..|apply Forall_nil_2]; compute_done. }
  assert (NoDup (hex <$> [A1_at 40.5; B2_at 39])) as Hnd by compute_done.
  assert ("B2" ∈ hex <$> [A1_at 40.5; B2_at 39]) as Hin by compute_done.
  pose proof (proj2 (proj2 (proj2
    (update_twice (update [A1_at 40] init) [A1_at 40.5; B2_at 39])))
    Hst Hplain) as Hsnd.
  split_and!; [exact Hst|exact Hplain|exact Hsnd|exact Hnd|exact Hin|].
  exact (proj2 (proj1 (proj2 (proj2
           (update_twice (update [A1_at 40] init) [A1_at 40.5; B2_at 39])))
           Hsnd) "B2" Hnd Hin).
Defined.

(** C7.  When a batch holds two snapshots of a hex, and none after the
    second, the entry tracked for the hex after [update] has
    [active = true] and the flight, lat, lon, altitude, track and speed
    of the second snapshot: the last write wins, in input order. *)
Theorem update_last_write_wins {num : Type} (st : State num)
    (pre mid post : list (Plane num)) (s1 s2 : Plane num) :
  hex s1 = hex s2 →
  hex s2 ∉ hex <$> post →
  ∃ t, tracked (hex s2)
         (planes (update (pre ++ s1 :: mid ++ s2 :: post) st)) = Some t ∧
       active t = true ∧ same_fields t s2.
Proof.
  intros _ Hpost. exists (with_active s2 true).
  split_and!; [|done|by repeat split].
  apply update_tracked_present.
  rewrite app_comm_cons, app_assoc, last_with_hex_app. simpl.
  apply last_with_hex_None in Hpost. rewrite Hpost.
  by destruct (decide (hex s2 = hex s2)).
Qed.

Lemma update_last_write_wins_witness :
  let st := update [A1_at 39] init in
  hex (A1_at 40) = hex (A1_at 40.5) ∧ (hex (A1_at 40.5) ∉ hex <$> [B2_at 39]) ∧
  ∃ t, tracked "A1"
         (planes (update ([] ++ A1_at 40 :: [] ++ A1_at 40.5 :: [B2_at 39]) st))
       = Some t ∧
       active t = true ∧ same_fields t (A1_at 40.5).
Proof.
  assert (hex (A1_at 40.5) ∉ hex <$> [B2_at 39]) as Hpost by compute_done.
  split_and!; [reflexivity|exact Hpost|].
  exact (update_last_write_wins (update [A1_at 39] init) [] [] [B2_at 39]
           (A1_at 40) (A1_at 40.5) eq_refl Hpost).
Defined.

(** * The poll interval *)

Lemma handleIntervalChange_keeps (value cur : float) :
  PrimFloat.is_nan cur = false → PrimFloat.leb 100 cur = true →
  PrimFloat.is_nan (handleIntervalChange value cur) = false ∧
  PrimFloat.leb 100 (handleIntervalChange value cur) = true.
Proof.
  intros Hnan Hle. unfold handleIntervalChange.
  destruct (PrimFloat.is_nan value) eqn:Hv; simpl; [done|].
  by destruct (PrimFloat.leb 100 value) eqn:Hl.
Qed.

(** C9.  The interval starts at 500; a change event stores its value
    when the value is a number (not NaN) no smaller than 100 and leaves
    the stored interval as it is otherwise; so after any run of change
    events the stored interval is a number no smaller than 100. *)
Theorem interval_at_least_100 :
  updateInterval_default = 500%float ∧
  (∀ value cur, PrimFloat.is_nan value = false →
     PrimFloat.leb 100 value = true →
     handleIntervalChange value cur = value) ∧
  (∀ value cur,
     PrimFloat.is_nan value = true ∨ PrimFloat.leb 100 value = false →
     handleIntervalChange value cur = cur) ∧
  (∀ values, PrimFloat.is_nan (interval_after values) = false ∧
             PrimFloat.leb 100 (interval_after values) = true).
Proof.
  split_and!; [done| | |].
  - intros value cur Hnan Hle. unfold handleIntervalChange.
    by rewrite Hnan, Hle.
  - intros value cur [Hnan|Hle]; unfold handleIntervalChange.
    + by rewrite Hnan.
    + rewrite Hle. by destruct (negb _).
  - intros values. unfold interval_after.
    assert (PrimFloat.is_nan updateInterval_default = false ∧
            PrimFloat.leb 100 updateInterval_default = true) as Hinit
      by (split; reflexivity).
    revert Hinit. generalize updateInterval_default.
    induction values as [|value values IH]; intros cur [Hnan Hle]; [done|].
    simpl. by apply IH, handleIntervalChange_keeps.
Qed.

Lemma interval_at_least_100_witness :
  handleIntervalChange 250 500 = 250%float ∧
  handleIntervalChange 99 500 = 500%float ∧
  handleIntervalChange nan 500 = 500%float.
Proof.
  split_and!.
  - exact (proj1 (proj2 interval_at_least_100) 250%float 500%float
             eq_refl eq_refl).
  - exact (proj1 (proj2 (proj2 interval_at_least_100)) 99%float 500%float
             (or_intror eq_refl)).
  - exact (proj1 (proj2 (proj2 interval_at_least_100)) nan 500%float
             (or_introl eq_refl)).
Defined.

(** * More of the reconciliation *)

Lemma Map_get_entry {V : Type} (m : list (string * V)) (k : string) (v : V) :
  NoDup m.*1 → (k, v) ∈ m → Map_get k m = Some v.
Proof.
  induction m as [|e m IH]; simpl.
  - by intros _ ?%elem_of_nil.
  - intros [Hnin Hnd]%NoDup_cons [<-|Hin]%elem_of_cons; simpl.
    + by destruct (decide (k = k)).
    + destruct (decide (e.1 = k)) as [He|]; [|by apply IH].
      destruct Hnin. rewrite He.
      by apply (list_elem_of_fmap_2 fst) in Hin.
Qed.

Lemma setPlanes_elem {num : Type} (data prev : list (Plane num)) (p : Plane num) :
  p ∈ setPlanes data prev → tracked (hex p) (setPlanes data prev) = Some p.
Proof.
  unfold setPlanes at 1, Map_values.
  intros ([k q] & -> & Hin)%list_elem_of_fmap. simpl.
  pose proof (planeMap_keyed data prev) as Hkeyed.
  assert (hex q = k) as Hk.
  { unfold keyed in Hkeyed. rewrite Forall_forall in Hkeyed.
    exact (Hkeyed _ Hin). }
  unfold setPlanes. rewrite keyed_tracked by done.
  apply Map_get_entry; [apply planeMap_NoDup|]. by rewrite Hk.
Qed.

(** A poll keeps the array at one aircraft per hex, whatever the
    response. *)
Lemma fetchData_one_per_hex {num : Type} (response : Response num)
    (st : State num) :
  one_per_hex (planes st) → one_per_hex (planes (fetchData response st).1).
Proof.
  intros Hone. unfold fetchData.
  destruct (planeTrails st) as [tr|]; [|done].
  destruct response as [|data|]; [done| |done].
  apply setPlanes_one_per_hex.
Qed.

Lemma session_one_per_hex {num : Type} (responses : list (Response num))
    (st : State num) :
  one_per_hex (planes st) → one_per_hex (planes (session responses st)).
Proof.
  unfold session. revert st.
  induction responses as [|response responses IH]; intros st Hone; [done|].
  cbn [fold_left]. apply IH. by apply fetchData_one_per_hex.
Qed.

(** X1.  After an update, whatever the state before, a plane of the
    tracked array is active exactly when the batch holds its hex. *)
Theorem update_active_iff_in_batch {num : Type} (st : State num)
    (data : list (Plane num)) (p : Plane num) :
  p ∈ planes (update data st) →
  (active p = true ↔ hex p ∈ hex <$> data).
Proof.
  simpl. intros Hp%setPlanes_elem. rewrite setPlanes_tracked in Hp.
  destruct (last_with_hex (hex p) data) as [s|] eqn:Hlast.
  - injection Hp as <-. simpl. split; [intros _|done].
    apply last_with_hex_Some in Hlast as [? ?].
    apply list_elem_of_fmap. eauto.
  - apply last_with_hex_None in Hlast.
    destruct (Map_get (hex p) _) as [q|]; [|done].
    injection Hp as <-. simpl. split; [done|]. simpl in Hlast. done.
Qed.

Lemma update_active_iff_in_batch_witness :
  let st := update [A1_at 40; B2_at 39] init in
  let data := [B2_at 39.5] in
  with_active (A1_at 40) false ∈ planes (update data st) ∧
  (active (with_active (A1_at 40) false) = true ↔
   hex (with_active (A1_at 40) false) ∈ hex <$> data).
Proof.
  assert (with_active (A1_at 40) false ∈
          planes (update [B2_at 39.5] (update [A1_at 40; B2_at 39] init)))
    as Hin by (vm_compute; constructor).
  split; [exact Hin|].
  exact (update_active_iff_in_batch _ _ _ Hin).
Defined.

(** X2.  The array an update returns never holds a hex twice, whatever
    array it started from; so no state of a session does, whatever the
    responses were: batches, failures, values that are no array. *)
Theorem tracked_array_one_per_hex {num : Type} :
  (∀ (st : State num) (data : list (Plane num)),
     NoDup (hex <$> planes (update data st))) ∧
  (∀ (responses : list (Response num)),
     NoDup (hex <$> planes (session responses init))).
Proof.
  split.
  - intros st data. apply setPlanes_one_per_hex.
  - intros responses. apply session_one_per_hex, init_one_per_hex.
Qed.

Lemma upsert_keys_order {num : Type} (data : list (Plane num))
    (m : list (string * Plane num)) :
  (fold_left upsert data m).*1 = m.*1 ++ new_hexes m.*1 data.
Proof.
  revert m. induction data as [|p data IH]; intros m; cbn [fold_left new_hexes].
  - by rewrite app_nil_r.
  - rewrite IH. unfold upsert.
    destruct (decide (hex p ∈ m.*1)) as [Hin|Hnin].
    + by rewrite Map_set_keys_present.
    + rewrite Map_set_fresh by done. rewrite fmap_app. simpl.
      by rewrite <- app_assoc.
Qed.

(** X3.  An update keeps the tracked aircraft in their places in the
    array and puts the aircraft it adds behind them, in the order in
    which the batch first names them. *)
Theorem update_keeps_order {num : Type} (st : State num)
    (data : list (Plane num)) :
  one_per_hex (planes st) →
  hex <$> planes (update data st) =
    (hex <$> planes st) ++ new_hexes (hex <$> planes st) data ∧
  length (planes (update data st)) =
    length (planes st) + length (new_hexes (hex <$> planes st) data).
Proof.
  intros Hone.
  assert (hex <$> planes (update data st) =
          (hex <$> planes st) ++ new_hexes (hex <$> planes st) data) as Hkeys.
  { simpl. unfold setPlanes. rewrite keyed_hexes by apply planeMap_keyed.
    rewrite planeMap_keys_eq, upsert_keys_order.
    rewrite Map_new_NoDup by by rewrite entries_keys.
    by rewrite entries_keys. }
  split; [done|].
  rewrite <- (length_fmap hex (planes (update data st))), Hkeys.
  by rewrite length_app, length_fmap.
Qed.

Lemma update_keeps_order_witness :
  let st := update [A1_at 40] init in
  let data := [B2_at 39; A1_at 40.5; B2_at 39.5] in
  one_per_hex (planes st) ∧
  hex <$> planes (update data st) = ["A1"; "B2"] ∧
  length (planes (update data st)) = 2.
Proof.
  assert (one_per_hex (planes (update [A1_at 40] init))) as Hone
    by (unfold one_per_hex; compute_done).
  split; [exact Hone|].
  exact (update_keeps_order (update [A1_at 40] init)
           [B2_at 39; A1_at 40.5; B2_at 39.5] Hone).
Defined.

Lemma inactive_entries_get {num : Type} (ps : list (Plane num)) (h : string) :
  Map_get h ((λ p, (hex p, with_active p false)) <$> ps) =
  (λ p, with_active p false) <$> tracked h ps.
Proof.
  induction ps as [|p ps IH]; simpl; [done|].
  by destruct (decide (hex p = h)).
Qed.

Lemma inactive_entries_keys {num : Type} (ps : list (Plane num)) :
  ((λ p, (hex p, with_active p false)) <$> ps).*1 = hex <$> ps.
Proof. induction ps as [|p ps IH]; simpl; [done|]. by f_equal. Qed.

(** X4.  An empty batch marks every tracked aircraft inactive, in place
    and with its other fields as they were, and leaves the trails as
    they are. *)
Theorem update_empty_batch {num : Type} (st : State num) :
  one_per_hex (planes st) →
  planes (update [] st) = (λ p, with_active p false) <$> planes st ∧
  Forall2 (λ t p, active t = false ∧ same_fields t p)
          (planes (update [] st)) (planes st) ∧
  planeTrails (update [] st) = planeTrails st.
Proof.
  intros Hone.
  assert (planes (update [] st) = (λ p, with_active p false) <$> planes st)
    as Hplanes.
  { simpl. unfold setPlanes.
    assert (planeMap_of [] (planes st) =
            (λ p, (hex p, with_active p false)) <$> planes st) as ->.
    { apply Map_ext.
      - rewrite planeMap_keys_eq. simpl.
        rewrite Map_new_NoDup by by rewrite entries_keys.
        by rewrite entries_keys, inactive_entries_keys.
      - apply planeMap_NoDup.
      - intros h. rewrite planeMap_get. simpl.
        by rewrite one_per_hex_get, inactive_entries_get. }
    unfold Map_values. rewrite <- list_fmap_compose. done. }
  split_and!; [exact Hplanes| |].
  - rewrite Hplanes. apply Forall2_fmap_l, Forall_Forall2_diag, Forall_forall.
    intros p _. split; [done|]. by repeat split.
  - unfold update. simpl. by destruct (planeTrails st).
Qed.

Lemma update_empty_batch_witness :
  let st := update [A1_at 40; B2_at 39] init in
  one_per_hex (planes st) ∧
  planes (update [] st) =
    [with_active (A1_at 40) false; with_active (B2_at 39) false] ∧
  Forall2 (λ t p, active t = false ∧ same_fields t p)
          (planes (update [] st)) (planes st) ∧
  planeTrails (update [] st) = planeTrails st.
Proof.
  assert (one_per_hex (planes (update [A1_at 40; B2_at 39] init))) as Hone
    by (unfold one_per_hex; compute_done).
  split; [exact Hone|].
  exact (update_empty_batch (update [A1_at 40; B2_at 39] init) Hone).
Defined.

(** ** Trails and tracked aircraft together *)

Lemma points_present {num : Type} (data : list (Plane num)) (h : string) :
  h ∈ hex <$> data → points h data ≠ [].
Proof.
  intros (p & -> & Hp)%list_elem_of_fmap Hnil.
  assert ((lat p, lon p) ∈ points (hex p) data) as Hin.
  { unfold points, with_hex.
    apply (list_elem_of_fmap_2 (λ q, (lat q, lon q))).
    by apply list_elem_of_filter. }
  rewrite Hnil in Hin. by apply elem_of_nil in Hin.
Qed.

Lemma last_points {num : Type} (data : list (Plane num)) (h : string) :
  last (points h data) = point_in h data.
Proof.
  unfold point_in. induction data as [|p data IH]; [done|].
  rewrite points_cons. simpl.
  destruct (decide (hex p = h)).
  - rewrite last_cons, IH. by destruct (last_with_hex h data).
  - rewrite IH. by destruct (last_with_hex h data).
Qed.

(** What a session keeps true of its state while the component is
    mounted: a trail for exactly the tracked hexes, each ending at the
    position its aircraft is tracked at. *)
Lemma update_keeps_trails_in_step {num : Type} (st : State num)
    (data : list (Plane num)) (tr tr' : gmap string (list (num * num))) :
  planeTrails st = Some tr → setPlaneTrails data tr = Some tr' →
  (∀ h, is_Some (tr !! h) ↔ h ∈ hex <$> planes st) →
  (∀ h p, tracked h (planes st) = Some p →
          last (default [] (tr !! h)) = Some (lat p, lon p)) →
  one_per_hex (planes st) →
  (∀ h, is_Some (tr' !! h) ↔ h ∈ hex <$> planes (update data st)) ∧
  (∀ h p, tracked h (planes (update data st)) = Some p →
          last (default [] (tr' !! h)) = Some (lat p, lon p)).
Proof.
  intros Htr Hret Hdom Hlast Hone. split.
  - intros h. simpl.
    rewrite (setPlaneTrails_is_Some _ _ _ _ Hret), setPlanes_hexes, Hdom.
    tauto.
  - intros h p. simpl. rewrite setPlanes_tracked.
    rewrite (setPlaneTrails_lookup _ _ _ _ Hret).
    pose proof (last_points data h) as Hpt. unfold point_in in Hpt.
    destruct (last_with_hex h data) as [s|] eqn:Hs; simpl.
    + intros [= <-].
      destruct (decide (h ∈ hex <$> data)) as [|Hnin].
      * simpl. by rewrite last_app, Hpt.
      * apply last_with_hex_None in Hnin. congruence.
    + apply last_with_hex_None in Hs.
      destruct (decide (h ∈ hex <$> data)); [done|].
      rewrite one_per_hex_get by done.
      destruct (tracked h (planes st)) as [q|] eqn:Hq; [|done].
      simpl. intros [= <-]. simpl. by apply Hlast.
Qed.

Lemma session_keeps_trails_in_step {num : Type}
    (responses : list (Response num)) (st : State num) :
  one_per_hex (planes st) →
  (∀ tr, planeTrails st = Some tr →
     (∀ h, is_Some (tr !! h) ↔ h ∈ hex <$> planes st) ∧
     (∀ h p, tracked h (planes st) = Some p →
             last (default [] (tr !! h)) = Some (lat p, lon p))) →
  ∀ tr, planeTrails (session responses st) = Some tr →
     (∀ h, is_Some (tr !! h) ↔ h ∈ hex <$> planes (session responses st)) ∧
     (∀ h p, tracked h (planes (session responses st)) = Some p →
             last (default [] (tr !! h)) = Some (lat p, lon p)).
Proof.
  unfold session. revert st.
  induction responses as [|response responses IH]; intros st Hone Hinv;
    [done|].
  cbn [fold_left]. apply IH; [by apply fetchData_one_per_hex|].
  intros tr' Htr'. unfold fetchData in Htr' |- *.
  destruct (planeTrails st) as [tr|] eqn:Htr;
    [|simpl in Htr'; congruence].
  destruct (Hinv tr eq_refl) as [Hdom Hlast].
  destruct response as [|data|]; cbn [fst] in Htr' |- *.
  - rewrite Htr in Htr'. by injection Htr' as <-.
  - simpl in Htr'. rewrite Htr in Htr'. simpl in Htr'.
    by apply (update_keeps_trails_in_step st data tr tr').
  - done.
Qed.

Lemma init_trails_in_step {num : Type} (tr : gmap string (list (num * num))) :
  planeTrails (@init num) = Some tr →
  (∀ h, is_Some (tr !! h) ↔ h ∈ hex <$> planes (@init num)) ∧
  (∀ h p, tracked h (planes (@init num)) = Some p →
          last (default [] (tr !! h)) = Some (lat p, lon p)).
Proof.
  intros [= <-]. split; [|done].
  intros h. simpl. rewrite lookup_empty, elem_of_nil.
  split; [by intros [? ?]|done].
Qed.

Lemma tracked_present {num : Type} (ps : list (Plane num)) (h : string) :
  h ∈ hex <$> ps → ∃ p, tracked h ps = Some p.
Proof.
  induction ps as [|q ps IH]; simpl; [by intros ?%elem_of_nil|].
  intros Hin. destruct (decide (hex q = h)); [eauto|].
  apply IH. apply elem_of_cons in Hin as [?|?]; [congruence|done].
Qed.

(** X5.  In every state of a session in which the component is still
    mounted, the trail record has an entry for exactly the hexes of the
    tracked aircraft, and the trail of a tracked aircraft holds at least
    one point. *)
Theorem trails_match_tracked {num : Type}
    (responses : list (Response num))
    (tr : gmap string (list (num * num))) (h : string) :
  planeTrails (session responses init) = Some tr →
  (is_Some (tr !! h) ↔ h ∈ hex <$> planes (session responses init)) ∧
  tr !! h ≠ Some [].
Proof.
  intros Htr.
  destruct (session_keeps_trails_in_step responses init init_one_per_hex
              init_trails_in_step tr Htr) as [Hdom Hlast].
  split; [apply Hdom|]. intros Hnil.
  assert (h ∈ hex <$> planes (session responses init)) as Hin.
  { apply Hdom. by rewrite Hnil. }
  apply tracked_present in Hin as [p Hp].
  apply Hlast in Hp. by rewrite Hnil in Hp.
Qed.

Lemma trails_match_tracked_witness :
  let responses := [Decoded [A1_at 40; B2_at 39]; FetchFailed;
                    Decoded [A1_at 40.5]] in
  let tr : gmap string (list (float * float)) :=
    {[ "A1" := [(40, -75); (40.5, -75)]%float; "B2" := [(39, -74)%float] ]} in
  planeTrails (session responses init) = Some tr ∧
  (is_Some (tr !! "B2") ↔ "B2" ∈ hex <$> planes (session responses init)) ∧
  tr !! "B2" ≠ Some [].
Proof.
  assert (planeTrails (session [Decoded [A1_at 40; B2_at 39]; FetchFailed;
                                Decoded [A1_at 40.5]] init) =
          Some {[ "A1" := [(40, -75); (40.5, -75)]%float;
                  "B2" := [(39, -74)%float] ]}) as Htr.
  { vm_compute. reflexivity. }
  split; [exact Htr|].
  exact (trails_match_tracked _ _ "B2" Htr).
Defined.

(** X6.  In every state of a session in which the component is still
    mounted, the trail of a tracked aircraft, active or not, ends at the
    position the aircraft is tracked at. *)
Theorem trail_ends_at_tracked_position {num : Type}
    (responses : list (Response num)) (h : string) (p : Plane num) :
  is_Some (planeTrails (session responses init)) →
  tracked h (planes (session responses init)) = Some p →
  last (trail h (session responses init)) = Some (lat p, lon p).
Proof.
  intros [tr Htr] Hp.
  destruct (session_keeps_trails_in_step responses init init_one_per_hex
              init_trails_in_step tr Htr) as [_ Hlast].
  unfold trail. rewrite Htr. simpl. by apply Hlast.
Qed.

Lemma trail_ends_at_tracked_position_witness :
  let responses := [Decoded [A1_at 40; B2_at 39]; FetchFailed;
                    Decoded [A1_at 40.5]; Decoded [B2_at 39.5]] in
  is_Some (planeTrails (session responses init)) ∧
  tracked "A1" (planes (session responses init)) =
    Some (with_active (A1_at 40.5) false) ∧
  last (trail "A1" (session responses init)) = Some (40.5, -75)%float.
Proof.
  assert (is_Some (planeTrails (session
            [Decoded [A1_at 40; B2_at 39]; FetchFailed; Decoded [A1_at 40.5];
             Decoded [B2_at 39.5]] init))) as Hst by by eexists.
  assert (tracked "A1" (planes (session
            [Decoded [A1_at 40; B2_at 39]; FetchFailed; Decoded [A1_at 40.5];
             Decoded [B2_at 39.5]] init)) =
          Some (with_active (A1_at 40.5) false)) as Hp by reflexivity.
  split_and!; [exact Hst|exact Hp|].
  exact (trail_ends_at_tracked_position _ "A1" _ Hst Hp).
Defined.

Lemma fetchData_unmounted {num : Type} (response : Response num)
    (st : State num) :
  planeTrails st = None → planeTrails (fetchData response st).1 = None.
Proof. unfold fetchData. intros Hst. by rewrite Hst. Qed.

Lemma session_unmounted {num : Type} (responses : list (Response num))
    (st : State num) :
  planeTrails st = None → planeTrails (session responses st) = None.
Proof.
  unfold session. revert st.
  induction responses as [|response responses IH]; intros st Hst; [done|].
  cbn [fold_left]. apply IH. by apply fetchData_unmounted.
Qed.

Lemma fetchData_trail {num : Type} (response : Response num) (st : State num)
    (h : string) :
  is_Some (planeTrails (fetchData response st).1) →
  trail h st `prefix_of` trail h (fetchData response st).1.
Proof.
  unfold fetchData. destruct (planeTrails st) as [tr|] eqn:Htr; [|done].
  destruct response as [|data|]; cbn [fst].
  - done.
  - intros Hupd. rewrite update_trail by done. by eexists.
  - by intros [? ?].
Qed.

(** X7.  A trail only grows at its end: whatever the responses of a
    session, failures among them, as long as the component is still
    mounted the trail a hex had before is a prefix of the trail it has
    after. *)
Theorem trail_append_only {num : Type}
    (responses : list (Response num)) (st : State num) (h : string) :
  is_Some (planeTrails (session responses st)) →
  trail h st `prefix_of` trail h (session responses st).
Proof.
  revert st. induction responses as [|response responses IH]; intros st Hend.
  - done.
  - change (session (response :: responses) st)
      with (session responses (fetchData response st).1) in *.
    assert (is_Some (planeTrails (fetchData response st).1)) as Hstep.
    { apply not_eq_None_Some. intros Hnone.
      apply (session_unmounted responses) in Hnone.
      rewrite Hnone in Hend. by destruct Hend. }
    etransitivity; [by apply fetchData_trail|by apply IH].
Qed.

Lemma trail_append_only_witness :
  let responses := [FetchFailed; Decoded [A1_at 40.5; B2_at 39]] in
  let st := update [A1_at 40] init in
  is_Some (planeTrails (session responses st)) ∧
  trail "A1" st `prefix_of` trail "A1" (session responses st).
Proof.
  assert (is_Some (planeTrails (session
            [FetchFailed; Decoded [A1_at 40.5; B2_at 39]]
            (update [A1_at 40] init)))) as Hst by by eexists.
  split; [exact Hst|].
  exact (trail_append_only _ (update [A1_at 40] init) "A1" Hst).
Defined.

Lemma last_with_hex_unique {num : Type} (data : list (Plane num)) (s : Plane num) :
  NoDup (hex <$> data) → s ∈ data → last_with_hex (hex s) data = Some s.
Proof.
  induction data as [|p data IH]; simpl.
  - by intros _ ?%elem_of_nil.
  - intros [Hnin Hnd]%NoDup_cons [->|Hin]%elem_of_cons.
    + apply last_with_hex_None in Hnin. rewrite Hnin.
      by destruct (decide (hex p = hex p)).
    + by rewrite IH.
Qed.

Lemma last_with_hex_Permutation {num : Type} (data data' : list (Plane num))
    (h : string) :
  NoDup (hex <$> data) → data ≡ₚ data' →
  last_with_hex h data' = last_with_hex h data.
Proof.
  intros Hnd Hperm.
  assert (NoDup (hex <$> data')) as Hnd' by by rewrite <- Hperm.
  destruct (last_with_hex h data) as [s|] eqn:Hlast.
  - apply last_with_hex_Some in Hlast as [<- Hin].
    apply last_with_hex_unique; [done|]. by rewrite <- Hperm.
  - apply last_with_hex_None. apply last_with_hex_None in Hlast.
    by rewrite <- Hperm.
Qed.

Lemma setPlaneTrails_Permutation {num : Type} (data data' : list (Plane num))
    (tr : gmap string (list (num * num))) :
  NoDup (hex <$> data) → data ≡ₚ data' →
  setPlaneTrails data' tr = setPlaneTrails data tr.
Proof.
  intros Hnd Hperm.
  assert (NoDup (hex <$> data')) as Hnd' by by rewrite <- Hperm.
  destruct (setPlaneTrails data tr) as [tr1|] eqn:H1.
  - destruct (setPlaneTrails data' tr) as [tr2|] eqn:H2.
    + f_equal. apply map_eq. intros h.
      rewrite (setPlaneTrails_lookup _ _ _ _ H1).
      rewrite (setPlaneTrails_lookup _ _ _ _ H2).
      rewrite !points_once by done. unfold point_in.
      rewrite (last_with_hex_Permutation data data') by done.
      destruct (decide (h ∈ hex <$> data)) as [Hin|Hnin];
        destruct (decide (h ∈ hex <$> data')) as [Hin'|Hnin']; try done.
      * destruct Hnin'. by rewrite <- Hperm.
      * destruct Hnin. by rewrite Hperm.
    + apply setPlaneTrails_None in H2 as (p & Hp & Hproto & Hnone).
      assert (setPlaneTrails data tr = None) as H1'.
      { apply setPlaneTrails_None. exists p. by rewrite Hperm. }
      congruence.
  - apply setPlaneTrails_None in H1 as (p & Hp & Hproto & Hnone).
    apply setPlaneTrails_None. exists p. by rewrite <- Hperm.
Qed.

(** X8.  When a batch holds each hex once, the order of its snapshots
    does not matter to what is tracked under a hex nor to the trails:
    a permutation of the batch gives the same entry for every hex and
    the same trail record, and throws when the batch throws. *)
Theorem update_batch_order_irrelevant {num : Type} (st : State num)
    (data data' : list (Plane num)) :
  NoDup (hex <$> data) → data ≡ₚ data' →
  (∀ h, tracked h (planes (update data' st)) =
        tracked h (planes (update data st))) ∧
  planeTrails (update data' st) = planeTrails (update data st).
Proof.
  intros Hnd Hperm. split.
  - intros h. simpl. rewrite !setPlanes_tracked.
    by rewrite (last_with_hex_Permutation data data').
  - unfold update. simpl. destruct (planeTrails st) as [tr|]; [|done].
    simpl. by apply setPlaneTrails_Permutation.
Qed.

Lemma update_batch_order_irrelevant_witness :
  let st := update [A1_at 40] init in
  NoDup (hex <$> [A1_at 40.5; B2_at 39]) ∧
  [A1_at 40.5; B2_at 39] ≡ₚ [B2_at 39; A1_at 40.5] ∧
  (∀ h, tracked h (planes (update [B2_at 39; A1_at 40.5] st)) =
        tracked h (planes (update [A1_at 40.5; B2_at 39] st))) ∧
  planeTrails (update [B2_at 39; A1_at 40.5] st) =
  planeTrails (update [A1_at 40.5; B2_at 39] st).
Proof.
  assert (NoDup (hex <$> [A1_at 40.5; B2_at 39])) as Hnd by compute_done.
  assert ([A1_at 40.5; B2_at 39] ≡ₚ [B2_at 39; A1_at 40.5]) as Hperm
    by apply Permutation_swap.
  split_and!; [exact Hnd|exact Hperm|..];
    apply (update_batch_order_irrelevant (update [A1_at 40] init) _ _ Hnd Hperm).
Defined.

(** X18.  In a run of batches that hold each hex at most once and no hex
    that names a member of [Object.prototype], started from the empty
    state, the trail updater never throws; the trail of a hex is the
    list of the points [(lat, lon)] that the batches holding the hex
    have for it, in the order of the batches, so its length is the
    number of those batches; a batch without the hex leaves its trail
    entry as it is; and the trail is cut at no length: [n] polls of a
    plane give [n] points. *)
Theorem trail_chronological {num : Type} :
  (∀ (batches : list (list (Plane num))) (h : string),
     Forall plain_hexes batches →
     Forall (λ data, NoDup (hex <$> data)) batches →
     is_Some (planeTrails (poll batches init)) ∧
     trail h (poll batches init) = omap (point_in h) batches ∧
     length (trail h (poll batches init)) = length (batches_with h batches)) ∧
  (∀ (st : State num) (data : list (Plane num)) (h : string)
     (tr tr' : gmap string (list (num * num))),
     planeTrails st = Some tr → planeTrails (update data st) = Some tr' →
     h ∉ hex <$> data → tr' !! h = tr !! h) ∧
  (∀ (s : Plane num) (n : nat),
     hex s ∉ Object_prototype_keys →
     length (trail (hex s) (poll (replicate n [s]) init)) = n).
Proof.
  assert (∀ (batches : list (list (Plane num))) (h : string),
            Forall plain_hexes batches →
            is_Some (planeTrails (poll batches init)) ∧
            trail h (poll batches init) = concat (points h <$> batches))
    as Hrun.
  { intros batches h Hplain.
    assert (is_Some (planeTrails (poll batches (@init num)))) as Hend.
    { apply poll_plain; [done|]. by eexists. }
    split; [done|]. by rewrite poll_trail. }
  split_and!.
  - intros batches h Hplain Honce.
    destruct (Hrun batches h Hplain) as [Hend ->].
    rewrite points_run_once by done.
    split_and!; [done|done|]. apply omap_point_in_length.
  - intros st data h tr tr' Htr Hupd Hnin.
    unfold update in Hupd. simpl in Hupd. rewrite Htr in Hupd.
    by apply (setPlaneTrails_absent data).
  - intros s n Hplain.
    destruct (Hrun (replicate n [s]) (hex s)) as [_ ->].
    { apply Forall_replicate. by apply Forall_cons_2; [|apply Forall_nil_2]. }
    induction n as [|n IH]; [done|]. csimpl. rewrite length_app, IH.
    rewrite points_cons. by destruct (decide (hex s = hex s)).
Qed.

Lemma trail_chronological_witness :
  let batches := [[A1_at 40; B2_at 39]; [B2_at 39.5]; [A1_at 40.5]] in
  Forall plain_hexes batches ∧
  Forall (λ data, NoDup (hex <$> data)) batches ∧
  is_Some (planeTrails (poll batches init)) ∧
  trail "A1" (poll batches init) = [(40, -75); (40.5, -75)]%float ∧
  length (trail "A1" (poll batches init)) = 2.
Proof.
  assert (Forall (@plain_hexes float)
            [[A1_at 40; B2_at 39]; [B2_at 39.5]; [A1_at 40.5]]) as Hplain.
  { unfold plain_hexes.
    repeat apply Forall_cons_2; try apply Forall_nil_2; compute_done. }
  assert (Forall (λ data : list (Plane float), NoDup (hex <$> data))
            [[A1_at 40; B2_at 39]; [B2_at 39.5]; [A1_at 40.5]]) as Honce.
  { repeat apply Forall_cons_2; [..|apply Forall_nil_2]; compute_done. }
  split; [exact Hplain|]. split; [exact Honce|].
  exact (proj1 (@trail_chronological float) _ "A1" Hplain Honce).
Defined.

(** * More of the poll interval *)

Lemma handleIntervalChange_valid (value cur : float) :
  handleIntervalChange value cur = if valid_interval value then value else cur.
Proof. done. Qed.

Lemma interval_fold (values : list float) (cur : float) :
  fold_left (λ cur value, handleIntervalChange value cur) values cur =
  default cur (last (filter (λ value, valid_interval value = true) values)).
Proof.
  revert cur. induction values as [|value values IH]; intros cur; [done|].
  cbn [fold_left]. rewrite IH, filter_cons, handleIntervalChange_valid.
  destruct (decide (valid_interval value = true)) as [Hv|Hv].
  - rewrite Hv, last_cons. by destruct (last _).
  - by destruct (valid_interval value).
Qed.

(** X9.  After any run of change events the stored interval is the last
    submitted value that passed the test of the handler, and 500 when
    none did. *)
Theorem interval_last_valid_wins (values : list float) :
  interval_after values =
  default 500%float
    (last (filter (λ value, valid_interval value = true) values)).
Proof. apply interval_fold. Qed.

(** * IEEE 754 doubles

    Facts of the binary64 arithmetic of [SpecFloat] that the distance
    and the comparator rest on. *)

Local Open Scope Z_scope.

Lemma digits2_pos_bounds (m : positive) :
  2 ^ (Zpos (digits2_pos m) - 1) <= Zpos m < 2 ^ Zpos (digits2_pos m).
Proof.
  induction m as [m IH|m IH|]; simpl digits2_pos.
  - rewrite Pos2Z.inj_succ.
    replace (Z.succ (Zpos (digits2_pos m)) - 1) with (Zpos (digits2_pos m)) by lia.
    rewrite Z.pow_succ_r by lia.
    assert (2 ^ Zpos (digits2_pos m) = 2 * 2 ^ (Zpos (digits2_pos m) - 1)) as E.
    { rewrite <- Z.pow_succ_r by lia. f_equal. lia. }
    lia.
  - rewrite Pos2Z.inj_succ.
    replace (Z.succ (Zpos (digits2_pos m)) - 1) with (Zpos (digits2_pos m)) by lia.
    rewrite Z.pow_succ_r by lia.
    assert (2 ^ Zpos (digits2_pos m) = 2 * 2 ^ (Zpos (digits2_pos m) - 1)) as E.
    { rewrite <- Z.pow_succ_r by lia. f_equal. lia. }
    lia.
  - simpl. lia.
Qed.

Lemma shr_1_m mrs : 0 <= shr_m mrs -> shr_m (shr_1 mrs) = shr_m mrs / 2.
Proof.
  destruct mrs as [m r s]. simpl. intros Hm.
  destruct m as [|[p|p|]|p]; cbn [shr_m]; try lia; try done.
  - apply (Z.div_unique _ 2 _ 1); lia.
  - apply (Z.div_unique _ 2 _ 0); lia.
Qed.

Lemma iter_shr_1_m p mrs :
  0 <= shr_m mrs -> shr_m (SpecFloat.iter_pos shr_1 p mrs) = shr_m mrs / 2 ^ Zpos p.
Proof.
  revert mrs. induction p as [p IH|p IH|]; intros mrs Hm; simpl SpecFloat.iter_pos.
  - assert (0 <= shr_m (shr_1 mrs)) as H1.
    { rewrite shr_1_m by done. apply Z.div_pos; lia. }
    assert (0 <= shr_m (SpecFloat.iter_pos shr_1 p (shr_1 mrs))) as H2.
    { rewrite IH by done. apply Z.div_pos; [done|]. apply Z.pow_pos_nonneg; lia. }
    rewrite IH, IH, shr_1_m by done.
    rewrite !Z.div_div by (try apply Z.pow_pos_nonneg; lia).
    f_equal. rewrite Pos2Z.inj_xI.
    rewrite <- Z.pow_add_r, <- (Z.pow_1_r 2) at 1 by lia.
    rewrite <- Z.pow_add_r by lia. f_equal. lia.
  - assert (0 <= shr_m (SpecFloat.iter_pos shr_1 p mrs)) as H2.
    { rewrite IH by done. apply Z.div_pos; [done|]. apply Z.pow_pos_nonneg; lia. }
    rewrite IH, IH by done.
    rewrite !Z.div_div by (try apply Z.pow_pos_nonneg; lia).
    f_equal. rewrite Pos2Z.inj_xO, <- Z.pow_add_r by lia. f_equal. lia.
  - rewrite shr_1_m by done. done.
Qed.

Lemma fexp_ge e : emin64 <= fexp prec emax e.
Proof. unfold fexp, emin64. lia. Qed.

Lemma shr_record_of_loc_m m l : shr_m (shr_record_of_loc m l) = m.
Proof. by destruct l as [|[]]. Qed.

Lemma shr_fexp_pos m e l :
  0 < m -> emin64 <= e ->
  0 < shr_m (fst (shr_fexp prec emax m e l)) /\
  emin64 <= snd (shr_fexp prec emax m e l).
Proof.
  intros Hm He. unfold shr_fexp, shr.
  destruct m as [|m|m]; [lia| |lia]. simpl Zdigits2.
  pose proof (digits2_pos_bounds m) as [Hlo Hhi].
  set (d := Zpos (digits2_pos m)) in *.
  destruct (fexp prec emax (d + e) - e) as [|p|p] eqn:Hn; simpl fst; simpl snd.
  - by rewrite shr_record_of_loc_m.
  - rewrite iter_shr_1_m by (rewrite shr_record_of_loc_m; lia).
    rewrite shr_record_of_loc_m. split; [|lia].
    assert (Zpos p = d - prec) as Hp.
    { unfold fexp in Hn. fold emin64 in Hn. lia. }
    apply Z.div_str_pos. split; [apply Z.pow_pos_nonneg; lia|].
    rewrite Hp. etransitivity; [|exact Hlo].
    apply Z.pow_le_mono_r; [lia|]. unfold prec. lia.
  - by rewrite shr_record_of_loc_m.
Qed.

Lemma round_nearest_even_pos m l : 0 < m -> 0 < round_nearest_even m l.
Proof.
  intros Hm. destruct l as [|[]]; simpl; try lia.
  destruct (Z.even m); lia.
Qed.

(** The rounding of a positive mantissa is a number of the sign asked
    for, never a zero and never NaN. *)
Lemma binary_round_aux_signed sx m e l :
  0 < m -> emin64 <= e -> signed sx (binary_round_aux prec emax sx m e l).
Proof.
  intros Hm He. unfold binary_round_aux.
  pose proof (shr_fexp_pos m e l Hm He) as [H1 H1e].
  destruct (shr_fexp prec emax m e l) as [mrs' e']. simpl in H1, H1e.
  pose proof (round_nearest_even_pos _ (loc_of_shr_record mrs') H1) as H2.
  pose proof (shr_fexp_pos _ e' loc_Exact H2 H1e) as [H3 _].
  destruct (shr_fexp prec emax _ e' loc_Exact) as [mrs'' e'']. simpl in H3.
  destruct (shr_m mrs'') as [|m''|m'']; [lia| |lia].
  destruct (e'' <=? emax - prec); [left; eauto|by right].
Qed.

Lemma binary_round_signed sx m e :
  emin64 <= e -> signed sx (binary_round prec emax sx m e).
Proof.
  intros He. unfold binary_round.
  destruct (shl_align m e _) as [mz ez] eqn:Hal.
  apply binary_round_aux_signed; [lia|].
  unfold shl_align in Hal.
  destruct (_ - e) as [|p|p] eqn:Hd; injection Hal as <- <-; try done.
  apply fexp_ge.
Qed.

Lemma binary_normalize_sign m e :
  emin64 <= e ->
  SFcompare (binary_normalize prec emax m e false) (S754_zero false) =
  Some (m ?= 0).
Proof.
  intros He. destruct m as [|m|m]; simpl binary_normalize.
  - done.
  - destruct (binary_round_signed false m e He) as [(m' & e' & ->)| ->]; done.
  - destruct (binary_round_signed true m e He) as [(m' & e' & ->)| ->]; done.
Qed.

Lemma iter_xO (m d : positive) : Zpos (Pos.iter xO m d) = Zpos m * 2 ^ Zpos d.
Proof.
  induction d as [|d IH] using Pos.peano_ind.
  - simpl. lia.
  - rewrite Pos.iter_succ, Pos2Z.inj_xO, IH, Pos2Z.inj_succ.
    rewrite Z.pow_succ_r by lia. lia.
Qed.

Lemma shl_align_fst mx ex ez :
  ez <= ex -> Zpos (fst (shl_align mx ex ez)) = Zpos mx * 2 ^ (ex - ez).
Proof.
  intros Hle. unfold shl_align.
  destruct (ez - ex) as [|d|d] eqn:Hd; simpl fst.
  - replace (ex - ez) with 0 by lia. lia.
  - lia.
  - rewrite iter_xO. f_equal. f_equal. lia.
Qed.

Lemma bounded_canonical m e :
  SpecFloat.bounded prec emax m e = true ->
  emin64 <= e /\ Zpos (digits2_pos m) <= prec /\
  (emin64 < e -> Zpos (digits2_pos m) = prec).
Proof.
  unfold SpecFloat.bounded, canonical_mantissa, fexp. fold emin64.
  intros [H _]%andb_prop. apply Z.eqb_eq in H. lia.
Qed.

Lemma canonical_lt mx ex my ey :
  SpecFloat.bounded prec emax mx ex = true -> SpecFloat.bounded prec emax my ey = true ->
  ex < ey -> Zpos mx < Zpos my * 2 ^ (ey - ex).
Proof.
  intros (Hex & Hdx & _)%bounded_canonical (Hey & _ & Hdy)%bounded_canonical Hlt.
  pose proof (digits2_pos_bounds mx) as [_ Hx].
  pose proof (digits2_pos_bounds my) as [Hy _].
  rewrite Hdy in Hy by lia.
  assert (2 ^ Zpos (digits2_pos mx) <= 2 ^ prec) as Hp
    by (apply Z.pow_le_mono_r; lia).
  assert (2 ^ 1 <= 2 ^ (ey - ex)) as Hq by (apply Z.pow_le_mono_r; lia).
  assert (2 ^ prec = 2 ^ (prec - 1) * 2 ^ 1) as Hr by reflexivity.
  assert (0 < 2 ^ (prec - 1)) by reflexivity.
  nia.
Qed.

(** On two numbers of the format, [SFcompare] reads the sign of the
    difference of the aligned mantissas. *)
Lemma SFcompare_aligned sx mx ex sy my ey :
  SpecFloat.bounded prec emax mx ex = true -> SpecFloat.bounded prec emax my ey = true ->
  SFcompare (S754_finite sx mx ex) (S754_finite sy my ey) =
  Some (cond_Zopp sx (Zpos (fst (shl_align mx ex (Z.min ex ey)))) -
        cond_Zopp sy (Zpos (fst (shl_align my ey (Z.min ex ey)))) ?= 0).
Proof.
  intros Hx Hy.
  rewrite !shl_align_fst by lia.
  assert (0 < 2 ^ (ex - Z.min ex ey)) by (apply Z.pow_pos_nonneg; lia).
  assert (0 < 2 ^ (ey - Z.min ex ey)) by (apply Z.pow_pos_nonneg; lia).
  cbn [SFcompare]. f_equal.
  destruct (Z.compare_spec ex ey) as [->|Hlt|Hgt].
  - rewrite Z.min_id, Z.sub_diag, Z.pow_0_r, !Z.mul_1_r.
    change (Pos.compare_cont Eq mx my) with (Pos.compare mx my).
    destruct sx, sy; cbn [cond_Zopp]; symmetry.
    + rewrite <- Z.compare_sub, Z.compare_opp. cbn [Z.compare].
      apply Pos.compare_antisym.
    + apply Z.compare_lt_iff. lia.
    + apply Z.compare_gt_iff. lia.
    + by rewrite <- Z.compare_sub.
  - pose proof (canonical_lt _ _ _ _ Hx Hy Hlt).
    rewrite Z.min_l in * by lia. rewrite Z.sub_diag, Z.pow_0_r, Z.mul_1_r in *.
    destruct sx, sy; cbn [cond_Zopp]; symmetry;
      first [apply Z.compare_lt_iff; lia | apply Z.compare_gt_iff; lia].
  - pose proof (canonical_lt _ _ _ _ Hy Hx ltac:(lia)).
    rewrite Z.min_r in * by lia. rewrite Z.sub_diag, Z.pow_0_r, Z.mul_1_r in *.
    destruct sx, sy; cbn [cond_Zopp]; symmetry;
      first [apply Z.compare_lt_iff; lia | apply Z.compare_gt_iff; lia].
Qed.

Lemma valid_emin s m e :
  valid_binary (S754_finite s m e) = true -> emin64 <= e.
Proof. intros H. by apply bounded_canonical in H as [? _]. Qed.

(** The sign of a difference tells the order of its two terms. *)
Lemma SFsub_compare x y c :
  valid_binary x = true -> valid_binary y = true ->
  x <> S754_nan -> y <> S754_nan -> c <> Eq ->
  SFcompare (SF64sub x y) (S754_zero false) = Some c <-> SFcompare x y = Some c.
Proof.
  intros Hx Hy Hnx Hny Hc. unfold SF64sub.
  destruct x as [sx|sx| |sx mx ex], y as [sy|sy| |sy my ey]; try done;
    try (destruct sx, sy, c; cbn; split; congruence).
  - cbn [SFsub].
    rewrite binary_normalize_sign
      by (apply valid_emin in Hx, Hy; lia).
    by rewrite SFcompare_aligned.
Qed.

Lemma SFcompare_swap x y :
  valid_binary x = true -> valid_binary y = true ->
  SFcompare y x = Some Lt <-> SFcompare x y = Some Gt.
Proof.
  intros Hx Hy.
  destruct x as [sx|sx| |sx mx ex], y as [sy|sy| |sy my ey];
    try (cbn; split; congruence);
    try (destruct sx; cbn; split; congruence);
    try (destruct sy; cbn; split; congruence);
    try (destruct sx, sy; cbn; split; congruence).
  rewrite (SFcompare_aligned sx mx ex sy my ey) by done.
  rewrite (SFcompare_aligned sy my ey sx mx ex) by done.
  rewrite (Z.min_comm ey ex).
  generalize (cond_Zopp sx (Zpos (fst (shl_align mx ex (Z.min ex ey))))).
  generalize (cond_Zopp sy (Zpos (fst (shl_align my ey (Z.min ex ey))))).
  intros b a. split; intros [= H]; f_equal.
  - rewrite Z.compare_lt_iff in H. apply Z.compare_gt_iff. lia.
  - rewrite Z.compare_gt_iff in H. apply Z.compare_lt_iff. lia.
Qed.

Lemma SFcompare_zero_swap r :
  SFcompare (S754_zero false) r = Some Lt <->
  SFcompare r (S754_zero false) = Some Gt.
Proof. destruct r as [s|s| |s m e]; try destruct s; cbn; split; congruence. Qed.

Local Open Scope float_scope.

Lemma Prim2SF_not_nan x : is_nan x = false -> Prim2SF x <> S754_nan.
Proof.
  intros H E. assert (x = nan) as -> by (by apply Prim2SF_inj; rewrite E).
  done.
Qed.

Lemma SFltb_true a b : SFltb a b = true <-> SFcompare a b = Some Lt.
Proof. unfold SFltb. destruct (SFcompare a b) as [[]|]; split; congruence. Qed.

(** For two numbers, [x - y] is negative exactly when [x < y] and
    positive exactly when [y < x]. *)
Lemma sub_sign (x y : float) :
  is_nan x = false -> is_nan y = false ->
  (x - y <? 0) = (x <? y) /\ (0 <? x - y) = (y <? x).
Proof.
  intros Hx%Prim2SF_not_nan Hy%Prim2SF_not_nan.
  pose proof (Prim2SF_valid x) as Vx. pose proof (Prim2SF_valid y) as Vy.
  rewrite !ltb_spec, sub_spec. change (Prim2SF 0) with (S754_zero false).
  split; apply Bool.eq_iff_eq_true; rewrite !SFltb_true.
  - by apply SFsub_compare.
  - rewrite SFcompare_zero_swap, SFcompare_swap by done.
    by apply SFsub_compare.
Qed.

(** NaN goes through every operation. *)

Lemma Prim2SF_nan : Prim2SF nan = S754_nan.
Proof. reflexivity. Qed.

Lemma Prim2SF_zero : Prim2SF 0 = S754_zero false.
Proof. reflexivity. Qed.

Lemma SFcompare_refl_finite s m e :
  SFcompare (S754_finite s m e) (S754_finite s m e) = Some Eq.
Proof.
  simpl. destruct s; rewrite Z.compare_refl, Pos.compare_cont_refl; done.
Qed.

Lemma is_nan_true x : is_nan x = true <-> x = nan.
Proof.
  unfold is_nan. rewrite FloatAxioms.eqb_spec. unfold SFeqb.
  split.
  - intros H. apply Prim2SF_inj. rewrite Prim2SF_nan.
    destruct (Prim2SF x) as [s|s| |s m e] eqn:E; [| | done |].
    + done.
    + by destruct s.
    + by rewrite SFcompare_refl_finite in H.
  - intros ->. reflexivity.
Qed.

Lemma sub_nan_l x : nan - x = nan.
Proof. apply Prim2SF_inj. rewrite sub_spec, Prim2SF_nan. done. Qed.
Lemma sub_nan_r x : x - nan = nan.
Proof. apply Prim2SF_inj. rewrite sub_spec, Prim2SF_nan. by destruct (Prim2SF x). Qed.
Lemma add_nan_l x : nan + x = nan.
Proof. apply Prim2SF_inj. rewrite add_spec, Prim2SF_nan. done. Qed.
Lemma add_nan_r x : x + nan = nan.
Proof. apply Prim2SF_inj. rewrite add_spec, Prim2SF_nan. by destruct (Prim2SF x). Qed.
Lemma mul_nan_l x : nan * x = nan.
Proof. apply Prim2SF_inj. rewrite mul_spec, Prim2SF_nan. done. Qed.
Lemma mul_nan_r x : x * nan = nan.
Proof. apply Prim2SF_inj. rewrite mul_spec, Prim2SF_nan. by destruct (Prim2SF x). Qed.
Lemma div_nan_l x : nan / x = nan.
Proof. apply Prim2SF_inj. rewrite div_spec, Prim2SF_nan. done. Qed.
Lemma sqrt_nan : PrimFloat.sqrt nan = nan.
Proof. reflexivity. Qed.

Lemma ltb_nan_l x : (nan <? x) = false.
Proof. rewrite ltb_spec, Prim2SF_nan. done. Qed.
Lemma ltb_nan_r x : (x <? nan) = false.
Proof. rewrite ltb_spec, Prim2SF_nan. unfold SFltb. by destruct (Prim2SF x). Qed.

Lemma sqrt_negative x : (x <? 0) = true -> PrimFloat.sqrt x = nan.
Proof.
  rewrite ltb_spec, Prim2SF_zero. intros H.
  apply Prim2SF_inj. rewrite sqrt_spec, Prim2SF_nan.
  unfold SFltb in H.
  destruct (Prim2SF x) as [s|s| |s m e]; try done; destruct s; done.
Qed.

(** Numbers that are infinite or NaN, and numbers that are neither. *)
Lemma is_infinity_SF x :
  is_infinity x = true ↔ ∃ s, Prim2SF x = S754_infinity s.
Proof.
  unfold is_infinity. rewrite FloatAxioms.eqb_spec, abs_spec.
  change (Prim2SF infinity) with (S754_infinity false).
  destruct (Prim2SF x) as [s|s| |s m e]; cbn; split;
    try done; try (by intros [? ?]); eauto.
Qed.

Lemma finite_false x : finite x = false ↔ nonfinite (Prim2SF x).
Proof.
  unfold finite.
  destruct (is_nan x) eqn:Hnan.
  - apply is_nan_true in Hnan as ->. done.
  - apply Prim2SF_not_nan in Hnan. cbn [negb andb].
    rewrite negb_false_iff, is_infinity_SF.
    destruct (Prim2SF x) as [s|s| |s m e]; cbn; split;
      try done; try (by intros [? ?]); eauto.
Qed.

Lemma nonfinite_nan x : nonfinite (Prim2SF x) → is_nan x || is_infinity x = true.
Proof.
  intros Hx. apply finite_false in Hx. unfold finite in Hx.
  by destruct (is_nan x), (is_infinity x).
Qed.

Lemma sub_nonfinite_l x y :
  nonfinite (Prim2SF x) → nonfinite (Prim2SF (x - y)).
Proof.
  rewrite sub_spec. unfold SF64sub.
  destruct (Prim2SF x) as [s|s| |s m e], (Prim2SF y) as [s'|s'| |s' m' e'];
    try done; by destruct s, s'.
Qed.

Lemma sub_nonfinite_r x y :
  nonfinite (Prim2SF y) → nonfinite (Prim2SF (x - y)).
Proof.
  rewrite sub_spec. unfold SF64sub.
  destruct (Prim2SF x) as [s|s| |s m e], (Prim2SF y) as [s'|s'| |s' m' e'];
    try done; by destruct s, s'.
Qed.

Lemma finite_true x :
  finite x = true →
  (∃ s, Prim2SF x = S754_zero s) ∨ (∃ s m e, Prim2SF x = S754_finite s m e).
Proof.
  intros Hx. destruct (Prim2SF x) as [s|s| |s m e] eqn:Hsf; [eauto| | |eauto 6].
  - assert (nonfinite (Prim2SF x)) as Hn by by rewrite Hsf.
    apply finite_false in Hn. congruence.
  - assert (nonfinite (Prim2SF x)) as Hn by by rewrite Hsf.
    apply finite_false in Hn. congruence.
Qed.

Lemma finite_zero x s : Prim2SF x = S754_zero s → finite x = true.
Proof.
  intros Hx. destruct (finite x) eqn:Hf; [done|].
  apply finite_false in Hf. by rewrite Hx in Hf.
Qed.

Lemma sub_diag x : finite x = true → x - x = 0.
Proof.
  intros Hx. apply Prim2SF_inj. rewrite sub_spec. unfold SF64sub.
  destruct (finite_true x Hx) as [[s ->]|(s & m & e & ->)].
  - by destruct s.
  - cbn [SFsub]. by rewrite Z.sub_diag.
Qed.

Lemma mul_zero_r x :
  finite x = true → ∃ s, Prim2SF (x * 0) = S754_zero s.
Proof.
  intros Hx. rewrite mul_spec. unfold SF64mul.
  change (Prim2SF 0) with (S754_zero false).
  destruct (finite_true x Hx) as [[s ->]|(s & m & e & ->)]; cbn; eauto.
Qed.

Lemma add_zero_zero x s : Prim2SF x = S754_zero s → 0 + x = 0.
Proof.
  intros Hx. apply Prim2SF_inj. rewrite add_spec, Hx.
  change (Prim2SF 0) with (S754_zero false). by destruct s.
Qed.

(** The opposite goes through the product and the quotient. *)
Lemma binary_round_aux_opp s m e l :
  binary_round_aux prec emax (negb s) m e l =
  SFopp (binary_round_aux prec emax s m e l).
Proof.
  unfold binary_round_aux.
  destruct (shr_fexp prec emax m e l) as [mrs' e'].
  destruct (shr_fexp prec emax _ e' loc_Exact) as [mrs'' e''].
  destruct (shr_m mrs'') as [|p|p]; [done| |done].
  by destruct (e'' <=? emax - prec)%Z.
Qed.

Lemma binary_round_opp s m e :
  binary_round prec emax (negb s) m e = SFopp (binary_round prec emax s m e).
Proof.
  unfold binary_round. destruct (shl_align m e _) as [mz ez].
  apply binary_round_aux_opp.
Qed.

Lemma SFopp_involutive r : SFopp (SFopp r) = r.
Proof. destruct r as [s|s| |s m e]; cbn; by rewrite ?negb_involutive. Qed.

Lemma SFmul_opp_l x y : SFmul prec emax (SFopp x) y = SFopp (SFmul prec emax x y).
Proof.
  destruct x as [sx|sx| |sx mx ex], y as [sy|sy| |sy my ey]; cbn [SFmul SFopp];
    rewrite <- ?negb_xorb_l; try done.
  apply binary_round_aux_opp.
Qed.

Lemma SFmul_comm x y : SFmul prec emax x y = SFmul prec emax y x.
Proof.
  destruct x as [sx|sx| |sx mx ex], y as [sy|sy| |sy my ey]; cbn [SFmul];
    rewrite ?(xorb_comm sx sy); try done.
  by rewrite Pos.mul_comm, Z.add_comm.
Qed.

Lemma SFdiv_opp_l x y : SFdiv prec emax (SFopp x) y = SFopp (SFdiv prec emax x y).
Proof.
  destruct x as [sx|sx| |sx mx ex], y as [sy|sy| |sy my ey]; cbn [SFdiv SFopp];
    rewrite <- ?negb_xorb_l; try done.
  destruct (SFdiv_core_binary prec emax (Z.pos mx) ex (Z.pos my) ey)
    as [[mz ez] lz].
  apply binary_round_aux_opp.
Qed.

Lemma mul_opp_l x y : (- x) * y = - (x * y).
Proof.
  apply Prim2SF_inj. rewrite mul_spec, !opp_spec, mul_spec.
  apply SFmul_opp_l.
Qed.

Lemma mul_comm x y : x * y = y * x.
Proof. apply Prim2SF_inj. rewrite !mul_spec. apply SFmul_comm. Qed.

Lemma mul_opp_r x y : x * (- y) = - (x * y).
Proof. by rewrite mul_comm, mul_opp_l, mul_comm. Qed.

Lemma opp_involutive x : - - x = x.
Proof. apply Prim2SF_inj. rewrite !opp_spec. apply SFopp_involutive. Qed.

Lemma div_opp_l x y : (- x) / y = - (x / y).
Proof.
  apply Prim2SF_inj. rewrite div_spec, !opp_spec, div_spec.
  apply SFdiv_opp_l.
Qed.

Lemma is_nan_opp x : is_nan (- x) = is_nan x.
Proof.
  destruct (is_nan x) eqn:Hx.
  - apply is_nan_true in Hx as ->. done.
  - apply Prim2SF_not_nan in Hx.
    destruct (is_nan (- x)) eqn:Hox; [|done].
    apply is_nan_true in Hox. destruct Hx.
    apply (f_equal Prim2SF) in Hox. rewrite opp_spec in Hox.
    change (Prim2SF nan) with S754_nan in Hox.
    by destruct (Prim2SF x).
Qed.

Lemma is_infinity_opp x : is_infinity (- x) = is_infinity x.
Proof.
  unfold is_infinity. rewrite !FloatAxioms.eqb_spec, !abs_spec, opp_spec.
  by destruct (Prim2SF x).
Qed.

Lemma is_zero_opp x : is_zero (- x) = is_zero x.
Proof.
  unfold is_zero. rewrite !FloatAxioms.eqb_spec, opp_spec.
  change (Prim2SF zero) with (S754_zero false).
  destruct (Prim2SF x) as [s|s| |s m e]; try done; by destruct s.
Qed.

(** The two differences of two numbers are opposite, or both [+0]. *)
Lemma sub_swap x y : y - x = - (x - y) ∨ (y - x = 0 ∧ x - y = 0).
Proof.
  assert (Prim2SF (y - x) = SFopp (Prim2SF (x - y)) ∨
          (Prim2SF (y - x) = S754_zero false ∧
           Prim2SF (x - y) = S754_zero false)) as [H|[H1 H2]].
  { rewrite !sub_spec. unfold SF64sub.
    destruct (Prim2SF x) as [sx|sx| |sx mx ex],
             (Prim2SF y) as [sy|sy| |sy my ey];
      try (by left); try (by right);
      try (destruct sx, sy; cbn; (by left) || (by right)).
    cbn [SFsub]. rewrite (Z.min_comm ey ex).
    set (a := cond_Zopp sx _). set (b := cond_Zopp sy _).
    destruct (Z.compare_spec a b) as [->|Hlt|Hgt].
    - right. by rewrite Z.sub_diag.
    - left. destruct (b - a)%Z as [|p|p] eqn:Hp; [lia| |lia].
      assert ((a - b)%Z = Z.neg p) as -> by lia.
      cbn [binary_normalize]. apply (binary_round_opp true).
    - left. destruct (a - b)%Z as [|p|p] eqn:Hp; [lia| |lia].
      assert ((b - a)%Z = Z.neg p) as -> by lia.
      cbn [binary_normalize]. apply (binary_round_opp false). }
  - left. apply Prim2SF_inj. by rewrite opp_spec.
  - right. split; by apply Prim2SF_inj.
Qed.


(** * The great-circle distance *)

Lemma Math_sin_approx (E : Engine) (x : float) :
  is_nan x = false → is_infinity x = false → is_zero x = false →
  Math_sin E x = sin_approx E x.
Proof. unfold Math_sin. by intros -> -> ->. Qed.

Lemma Math_cos_approx (E : Engine) (x : float) :
  is_nan x = false → is_infinity x = false → is_zero x = false →
  Math_cos E x = cos_approx E x.
Proof. unfold Math_cos. by intros -> -> ->. Qed.

Lemma Math_atan2_approx (E : Engine) (y x : float) :
  is_nan y = false → is_nan x = false → is_zero y = false →
  (x =? infinity) = false →
  Math_atan2 E y x = atan2_approx E y x.
Proof.
  unfold Math_atan2. intros -> -> -> ->. simpl.
  by rewrite andb_false_r.
Qed.

Lemma Math_atan2_nan_r (E : Engine) (y : float) : Math_atan2 E y nan = nan.
Proof. unfold Math_atan2. by rewrite orb_true_r. Qed.

Lemma Math_atan2_nan_l (E : Engine) (x : float) : Math_atan2 E nan x = nan.
Proof. done. Qed.

Lemma ltb_not_nan_l (x y : float) : (x <? y) = true → is_nan x = false.
Proof.
  intros Hlt. destruct (is_nan x) eqn:Hx; [|done].
  apply is_nan_true in Hx as ->. by rewrite ltb_nan_l in Hlt.
Qed.

Lemma ltb_not_nan_r (x y : float) : (x <? y) = true → is_nan y = false.
Proof.
  intros Hlt. destruct (is_nan y) eqn:Hy; [|done].
  apply is_nan_true in Hy as ->. by rewrite ltb_nan_r in Hlt.
Qed.

Lemma leb_nan_r (x : float) : (x <=? nan) = false.
Proof. rewrite leb_spec, Prim2SF_nan. unfold SFleb. by destruct (Prim2SF x). Qed.

(** Nothing keeps [a] at or below 1: when its rounded value is above 1,
    [Math.sqrt(1 - a)] is NaN and so is the distance. *)
Lemma haversineDistance_above_one (E : Engine) (lat1 lon1 lat2 lon2 : float) :
  (1 <? haversine_a E lat1 lon1 lat2 lon2) = true →
  haversineDistance E lat1 lon1 lat2 lon2 = nan.
Proof.
  intros Habove. unfold haversineDistance. cbv zeta.
  set (a := haversine_a E lat1 lon1 lat2 lon2) in *.
  pose proof (ltb_not_nan_r _ _ Habove) as Ha.
  destruct (sub_sign 1 a eq_refl Ha) as [Hneg _].
  rewrite Habove in Hneg. unfold Math_sqrt at 2.
  rewrite (sqrt_negative _ Hneg), Math_atan2_nan_r.
  by rewrite !mul_nan_r.
Qed.

(** A coordinate that is infinite or NaN makes the distance NaN,
    whatever the engine. *)
Lemma toRad_nonfinite x : nonfinite (Prim2SF x) → nonfinite (Prim2SF (toRad x / 2)).
Proof.
  unfold toRad. rewrite !div_spec, mul_spec. unfold SF64div, SF64mul.
  destruct (Prim2SF x) as [s|s| |s m e]; done.
Qed.

Lemma Math_sin_nonfinite E x : nonfinite (Prim2SF x) → Math_sin E x = nan.
Proof. intros Hx%nonfinite_nan. unfold Math_sin. by rewrite Hx. Qed.

Lemma Math_cos_nonfinite E x : nonfinite (Prim2SF x) → Math_cos E x = nan.
Proof. intros Hx%nonfinite_nan. unfold Math_cos. by rewrite Hx. Qed.

Lemma haversine_a_nonfinite E lat1 lon1 lat2 lon2 :
  finite lat1 && finite lon1 && finite lat2 && finite lon2 = false →
  haversine_a E lat1 lon1 lat2 lon2 = nan.
Proof.
  intros H. unfold haversine_a. cbv zeta.
  apply andb_false_iff in H
    as [[[H|H]%andb_false_iff|H]%andb_false_iff|H]; apply finite_false in H.
  - rewrite (Math_sin_nonfinite E (toRad (lat2 - lat1) / 2))
      by by apply toRad_nonfinite, sub_nonfinite_r.
    by rewrite mul_nan_l, add_nan_l.
  - rewrite (Math_sin_nonfinite E (toRad (lon2 - lon1) / 2))
      by by apply toRad_nonfinite, sub_nonfinite_r.
    by rewrite !mul_nan_r, add_nan_r.
  - rewrite (Math_sin_nonfinite E (toRad (lat2 - lat1) / 2))
      by by apply toRad_nonfinite, sub_nonfinite_l.
    by rewrite mul_nan_l, add_nan_l.
  - rewrite (Math_sin_nonfinite E (toRad (lon2 - lon1) / 2))
      by by apply toRad_nonfinite, sub_nonfinite_l.
    by rewrite !mul_nan_r, add_nan_r.
Qed.

Lemma haversineDistance_nonfinite (E : Engine) (lat1 lon1 lat2 lon2 : float) :
  finite lat1 && finite lon1 && finite lat2 && finite lon2 = false →
  haversineDistance E lat1 lon1 lat2 lon2 = nan.
Proof.
  intros Hnan. unfold haversineDistance. cbv zeta.
  rewrite (haversine_a_nonfinite E _ _ _ _ Hnan).
  unfold Math_sqrt at 1. rewrite sqrt_nan, Math_atan2_nan_l.
  by rewrite !mul_nan_r.
Qed.

(** From a point to itself. *)
Lemma haversine_a_same E lat lon :
  finite lat = true → finite lon = true →
  finite (Math_cos E (toRad lat) * Math_cos E (toRad lat)) = true →
  haversine_a E lat lon lat lon = 0.
Proof.
  intros Hlat Hlon Hcos. unfold haversine_a. cbv zeta.
  rewrite !sub_diag by done.
  change (Math_sin E (toRad 0 / 2)) with 0.
  change (0 * 0) with 0.
  destruct (mul_zero_r _ Hcos) as [s Hs].
  destruct (mul_zero_r _ (finite_zero _ _ Hs)) as [s' Hs'].
  by apply (add_zero_zero _ s').
Qed.

(** The two orders of the points. *)
Lemma toRad_half_opp x : toRad (- x) / 2 = - (toRad x / 2).
Proof. unfold toRad. by rewrite mul_opp_l, !div_opp_l. Qed.

Lemma Math_sin_opp E x :
  (∀ y, sin_approx E (- y) = - sin_approx E y) →
  Math_sin E (- x) = - Math_sin E x.
Proof.
  intros Hodd. unfold Math_sin.
  rewrite is_nan_opp, is_infinity_opp, is_zero_opp.
  destruct (is_nan x || is_infinity x); [done|].
  by destruct (is_zero x).
Qed.

Lemma haversine_term_swap E x y :
  (∀ z, sin_approx E (- z) = - sin_approx E z) →
  Math_sin E (toRad (y - x) / 2) = - Math_sin E (toRad (x - y) / 2) ∨
  Math_sin E (toRad (y - x) / 2) = Math_sin E (toRad (x - y) / 2).
Proof.
  intros Hodd. destruct (sub_swap x y) as [-> |[-> ->]]; [left|by right].
  by rewrite toRad_half_opp, Math_sin_opp.
Qed.

Lemma haversine_a_sym E lat1 lon1 lat2 lon2 :
  (∀ z, sin_approx E (- z) = - sin_approx E z) →
  haversine_a E lat1 lon1 lat2 lon2 = haversine_a E lat2 lon2 lat1 lon1.
Proof.
  intros Hodd. unfold haversine_a. cbv zeta.
  rewrite (mul_comm (Math_cos E (toRad lat1))).
  destruct (haversine_term_swap E lat1 lat2 Hodd) as [-> | ->],
           (haversine_term_swap E lon1 lon2 Hodd) as [-> | ->];
    repeat (rewrite mul_opp_l || rewrite mul_opp_r || rewrite opp_involutive);
    done.
Qed.

(** C10.  [haversineDistance] is not nonnegative on every pair of
    points: whenever the rounded [a] is above 1, [Math.sqrt(1 - a)] is
    NaN and so is the distance; and [a] is above 1 at (12, 0) and
    (-12, 180) in an engine that rounds the sine and the cosine to the
    nearest double there. *)
Theorem haversineDistance_not_a_number (E : Engine) :
  (∀ lat1 lon1 lat2 lon2 : float,
     (1 <? haversine_a E lat1 lon1 lat2 lon2) = true →
     haversineDistance E lat1 lon1 lat2 lon2 = nan) ∧
  (sin_approx E (-0x1.acee9f37bebd5p-3) = -0x1.a9cd9ac4258f5p-3 →
   sin_approx E 0x1.921fb54442d18p+0 = 1 →
   cos_approx E 0x1.acee9f37bebd5p-3 = 0x1.f4cfc327a008p-1 →
   cos_approx E (-0x1.acee9f37bebd5p-3) = 0x1.f4cfc327a008p-1 →
   haversine_a E 12 0 (-12) 180 = 0x1.0000000000001p+0 ∧
   Math_sqrt (1 - haversine_a E 12 0 (-12) 180) = nan ∧
   haversineDistance E 12 0 (-12) 180 = nan ∧
   (0 <=? haversineDistance E 12 0 (-12) 180) = false).
Proof.
  split; [apply haversineDistance_above_one|].
  intros Hs1 Hs2 Hc1 Hc2.
  assert (haversine_a E 12 0 (-12) 180 = 0x1.0000000000001p+0) as Ha.
  { unfold haversine_a. cbv zeta.
    change (toRad (-12 - 12) / 2) with (-0x1.acee9f37bebd5p-3).
    change (toRad (180 - 0) / 2) with 0x1.921fb54442d18p+0.
    change (toRad 12) with 0x1.acee9f37bebd5p-3.
    change (toRad (-12)) with (-0x1.acee9f37bebd5p-3).
    rewrite !Math_sin_approx, !Math_cos_approx by reflexivity.
    rewrite Hs1, Hs2, Hc1, Hc2. reflexivity. }
  assert (haversineDistance E 12 0 (-12) 180 = nan) as Hd.
  { apply haversineDistance_above_one. by rewrite Ha. }
  split_and!; [exact Ha|by rewrite Ha|exact Hd|].
  rewrite Hd. apply leb_nan_r.
Qed.

Lemma haversineDistance_not_a_number_witness :
  haversine_a scenario_engine 12 0 (-12) 180 = 0x1.0000000000001p+0 ∧
  Math_sqrt (1 - haversine_a scenario_engine 12 0 (-12) 180) = nan ∧
  haversineDistance scenario_engine 12 0 (-12) 180 = nan ∧
  (0 <=? haversineDistance scenario_engine 12 0 (-12) 180) = false.
Proof.
  exact (proj2 (haversineDistance_not_a_number scenario_engine)
           eq_refl eq_refl eq_refl eq_refl).
Defined.

(** * The order of the sidebar *)

Lemma ltb_asym (x y : float) : (x <? y) = true → (y <? x) = false.
Proof.
  intros Hlt. apply not_true_is_false. intros Hgt.
  rewrite ltb_spec, SFltb_true in Hlt, Hgt.
  apply SFcompare_swap in Hgt; [congruence|apply Prim2SF_valid..].
Qed.

Lemma sidebar_compare_active_first (E : Engine)
    (home : option (float * float)) (a b : Plane (option float)) :
  active a = true → active b = false →
  sidebar_compare E home a b = -1 ∧ sidebar_compare E home b a = 1.
Proof. unfold sidebar_compare. by intros -> ->. Qed.

Lemma sidebar_compare_same_activity (E : Engine)
    (home : option (float * float)) (a b : Plane (option float)) :
  active a = active b →
  sidebar_compare E home a b =
  match home with
  | Some home =>
      haversineDistance E home.1 home.2 (ToNumber (lat a)) (ToNumber (lon a)) -
      haversineDistance E home.1 home.2 (ToNumber (lat b)) (ToNumber (lon b))
  | None => 0
  end.
Proof. unfold sidebar_compare. intros ->. by destruct (active b). Qed.

Lemma Array_sort_pair {A : Type} (cmp : A → A → float) (x y : A) :
  Array_sort cmp [x; y] = if 0 <? cmp x y then [y; x] else [x; y].
Proof. done. Qed.

(** The scenario: from (0, 0) the distances to (0, 1) and to (0, 2), in
    an engine that rounds the sine and the arc tangent to the nearest
    double there. *)
Lemma haversineDistance_scenario (E : Engine) :
  sin_approx E 0x1.1df46a2529d39p-7 = 0x1.1df37c4954c21p-7 →
  sin_approx E 0x1.1df46a2529d39p-6 = 0x1.1df0b2b89dd1ep-6 →
  atan2_approx E 0x1.1df37c4954c21p-7 0x1.fffb02599c9cdp-1 =
    0x1.1df46a2529d39p-7 →
  atan2_approx E 0x1.1df0b2b89dd1ep-6 0x1.ffec097f5af8ap-1 =
    0x1.1df46a2529d39p-6 →
  haversineDistance E 0 0 0 1 = 0x1.bcc79ad9adfecp+6 ∧
  haversineDistance E 0 0 0 2 = 0x1.bcc79ad9adfecp+7.
Proof.
  intros Hs1 Hs2 Ht1 Ht2.
  assert (haversine_a E 0 0 0 1 = 0x1.3f680a5076462p-14) as Ha1.
  { unfold haversine_a. cbv zeta.
    change (toRad (0 - 0) / 2) with 0. change (toRad 0) with 0.
    change (toRad (1 - 0) / 2) with 0x1.1df46a2529d39p-7.
    change (Math_sin E 0) with 0. change (Math_cos E 0) with 1.
    rewrite !Math_sin_approx by reflexivity. rewrite Hs1. reflexivity. }
  assert (haversine_a E 0 0 0 2 = 0x1.3f61d03ea6527p-12) as Ha2.
  { unfold haversine_a. cbv zeta.
    change (toRad (0 - 0) / 2) with 0. change (toRad 0) with 0.
    change (toRad (2 - 0) / 2) with 0x1.1df46a2529d39p-6.
    change (Math_sin E 0) with 0. change (Math_cos E 0) with 1.
    rewrite !Math_sin_approx by reflexivity. rewrite Hs2. reflexivity. }
  unfold haversineDistance. cbv zeta. rewrite Ha1, Ha2.
  change (Math_sqrt 0x1.3f680a5076462p-14) with 0x1.1df37c4954c21p-7.
  change (Math_sqrt (1 - 0x1.3f680a5076462p-14)) with 0x1.fffb02599c9cdp-1.
  change (Math_sqrt 0x1.3f61d03ea6527p-12) with 0x1.1df0b2b89dd1ep-6.
  change (Math_sqrt (1 - 0x1.3f61d03ea6527p-12)) with 0x1.ffec097f5af8ap-1.
  rewrite !Math_atan2_approx by reflexivity. rewrite Ht1, Ht2.
  by split.
Qed.

(** A pair of equal activity whose first distance is below the second
    is listed in that order, whichever way it came. *)
Lemma sidebar_pair_by_distance (E : Engine) (home : float * float)
    (a b : Plane (option float)) :
  active a = active b →
  (haversineDistance E home.1 home.2 (ToNumber (lat a)) (ToNumber (lon a)) <?
   haversineDistance E home.1 home.2 (ToNumber (lat b)) (ToNumber (lon b)))
  = true →
  sidebar E (Some home) [a; b] = [a; b] ∧
  sidebar E (Some home) [b; a] = [a; b].
Proof.
  intros Hact Hlt. unfold sidebar. rewrite !Array_sort_pair.
  rewrite (sidebar_compare_same_activity E (Some home) a b) by done.
  rewrite (sidebar_compare_same_activity E (Some home) b a) by done.
  pose proof (ltb_not_nan_l _ _ Hlt) as Ha.
  pose proof (ltb_not_nan_r _ _ Hlt) as Hb.
  destruct (sub_sign _ _ Ha Hb) as [_ ->].
  destruct (sub_sign _ _ Hb Ha) as [_ ->].
  by rewrite Hlt, (ltb_asym _ _ Hlt).
Qed.

(** An aircraft without a coordinate, or with one that is not finite,
    is at no distance, and the comparator has no order for it. *)
Lemma sidebar_compare_lost (E : Engine) (home : float * float)
    (a b : Plane (option float)) :
  active a = active b →
  finite (ToNumber (lat a)) && finite (ToNumber (lon a)) &&
  finite (ToNumber (lat b)) && finite (ToNumber (lon b)) = false →
  sidebar_compare E (Some home) a b = nan.
Proof.
  intros Hact Hnan. rewrite sidebar_compare_same_activity by done.
  apply andb_false_iff in Hnan as [[Hnan|Hnan]%andb_false_iff|Hnan].
  - rewrite (haversineDistance_nonfinite E _ _ (ToNumber (lat a))).
    + apply sub_nan_l.
    + rewrite <- !andb_assoc. apply andb_false_iff. right.
      apply andb_false_iff. by right.
  - rewrite (haversineDistance_nonfinite E _ _ (ToNumber (lat b))).
    + apply sub_nan_r.
    + rewrite <- !andb_assoc. apply andb_false_iff. right.
      apply andb_false_iff. right. by rewrite Hnan.
  - rewrite (haversineDistance_nonfinite E _ _ (ToNumber (lat b))).
    + apply sub_nan_r.
    + by rewrite Hnan, andb_false_r.
Qed.

Lemma sort_insert_nan {A : Type} (cmp : A → A → float) (x y : A) (l : list A) :
  cmp x y = nan → sort_insert cmp x (y :: l) = x :: y :: l.
Proof. intros Hnan. cbn [sort_insert]. by rewrite Hnan. Qed.

(** C8, counterexample.  Three active aircraft seen from (0, 0): one at
    (0, 2), one that came without its latitude, one at (0, 1).  The
    comparator has NaN for the aircraft without latitude against either
    of the others, in every engine, and the sidebar lists the aircraft at
    (0, 2), 222 km away, before the one at (0, 1), 111 km away. *)
Lemma sidebar_not_by_distance :
  (active plane_far = true ∧ active plane_lost = true ∧
   active plane_near = true) ∧
  malformed plane_lost = true ∧
  (∀ E : Engine,
     sidebar_compare E (Some (0, 0)) plane_far plane_lost = nan ∧
     sidebar_compare E (Some (0, 0)) plane_lost plane_near = nan ∧
     sidebar E (Some (0, 0)) [plane_far; plane_lost; plane_near] =
       [plane_far; plane_lost; plane_near]) ∧
  haversineDistance scenario_engine 0 0 0 1 = 0x1.bcc79ad9adfecp+6 ∧
  haversineDistance scenario_engine 0 0 0 2 = 0x1.bcc79ad9adfecp+7 ∧
  (haversineDistance scenario_engine 0 0 (ToNumber (lat plane_near))
     (ToNumber (lon plane_near)) <?
   haversineDistance scenario_engine 0 0 (ToNumber (lat plane_far))
     (ToNumber (lon plane_far))) = true.
Proof.
  split_and!; try reflexivity.
  intros E.
  assert (sidebar_compare E (Some (0, 0)) plane_far plane_lost = nan) as H1.
  { by apply sidebar_compare_lost. }
  assert (sidebar_compare E (Some (0, 0)) plane_lost plane_near = nan) as H2.
  { by apply sidebar_compare_lost. }
  split_and!; [exact H1|exact H2|].
  unfold sidebar, Array_sort. cbn [fold_right].
  change (sort_insert _ plane_near []) with [plane_near].
  by rewrite (sort_insert_nan _ _ _ _ H2), (sort_insert_nan _ _ _ _ H1).
Qed.

(** C8, amended.  In every engine the comparator puts an active aircraft
    before an inactive one, and has 0 for two aircraft of equal activity
    when there is no home location.  With a home location and equal
    activity it returns the difference of the two computed distances:
    when neither distance is NaN it is below zero exactly when the first
    distance is below the second and above zero exactly when the second
    is below the first, so that the pair is listed by ascending distance;
    when a distance is NaN it is NaN.  In an engine that rounds the sine
    and the arc tangent to the nearest double, the distances from (0, 0)
    to (0, 1) and to (0, 2) are [0x1.bcc79ad9adfecp+6] and
    [0x1.bcc79ad9adfecp+7] (111.19492664455873 km and
    222.38985328911747 km), and the aircraft at (0, 1) is listed
    first. *)
Theorem sidebar_order (E : Engine) :
  (∀ home a b, active a = true → active b = false →
     sidebar_compare E home a b = -1 ∧ sidebar_compare E home b a = 1 ∧
     sidebar E home [a; b] = [a; b] ∧ sidebar E home [b; a] = [a; b]) ∧
  (∀ a b, active a = active b →
     sidebar_compare E None a b = 0 ∧ sidebar E None [a; b] = [a; b]) ∧
  (∀ home a b, active a = active b →
     let distA := haversineDistance E home.1 home.2
                    (ToNumber (lat a)) (ToNumber (lon a)) in
     let distB := haversineDistance E home.1 home.2
                    (ToNumber (lat b)) (ToNumber (lon b)) in
     sidebar_compare E (Some home) a b = distA - distB ∧
     (is_nan distA = false → is_nan distB = false →
        (sidebar_compare E (Some home) a b <? 0) = (distA <? distB) ∧
        (0 <? sidebar_compare E (Some home) a b) = (distB <? distA)) ∧
     ((distA <? distB) = true →
        sidebar E (Some home) [a; b] = [a; b] ∧
        sidebar E (Some home) [b; a] = [a; b]) ∧
     (is_nan distA || is_nan distB = true →
        sidebar_compare E (Some home) a b = nan)) ∧
  (sin_approx E 0x1.1df46a2529d39p-7 = 0x1.1df37c4954c21p-7 →
   sin_approx E 0x1.1df46a2529d39p-6 = 0x1.1df0b2b89dd1ep-6 →
   atan2_approx E 0x1.1df37c4954c21p-7 0x1.fffb02599c9cdp-1 =
     0x1.1df46a2529d39p-7 →
   atan2_approx E 0x1.1df0b2b89dd1ep-6 0x1.ffec097f5af8ap-1 =
     0x1.1df46a2529d39p-6 →
   haversineDistance E 0 0 0 1 = 0x1.bcc79ad9adfecp+6 ∧
   haversineDistance E 0 0 0 2 = 0x1.bcc79ad9adfecp+7 ∧
   sidebar E (Some (0, 0)) [plane_far; plane_near] = [plane_near; plane_far] ∧
   sidebar E (Some (0, 0)) [plane_near; plane_far] = [plane_near; plane_far]).
Proof.
  split_and!.
  - intros home a b Ha Hb.
    destruct (sidebar_compare_active_first E home a b Ha Hb) as [Hab Hba].
    split_and!; [done|done|..]; unfold sidebar; rewrite Array_sort_pair.
    + by rewrite Hab.
    + by rewrite Hba.
  - intros a b Hact.
    pose proof (sidebar_compare_same_activity E None a b Hact) as Hab.
    split; [done|]. unfold sidebar. by rewrite Array_sort_pair, Hab.
  - intros home a b Hact. cbv zeta.
    pose proof (sidebar_compare_same_activity E (Some home) a b Hact) as Hab.
    cbv beta iota in Hab. rewrite Hab.
    split_and!.
    + done.
    + intros Ha Hb. by apply sub_sign.
    + by apply sidebar_pair_by_distance.
    + intros [Hnan|Hnan]%orb_prop; apply is_nan_true in Hnan; rewrite Hnan.
      * apply sub_nan_l.
      * apply sub_nan_r.
  - intros Hs1 Hs2 Ht1 Ht2.
    destruct (haversineDistance_scenario E Hs1 Hs2 Ht1 Ht2) as [Hd1 Hd2].
    split_and!; [done|done|..];
      apply (sidebar_pair_by_distance E (0, 0) plane_near plane_far);
      try done;
      change ((haversineDistance E 0 0 0 1 <? haversineDistance E 0 0 0 2)
              = true);
      by rewrite Hd1, Hd2.
Qed.

Lemma sidebar_order_witness :
  haversineDistance scenario_engine 0 0 0 1 = 0x1.bcc79ad9adfecp+6 ∧
  haversineDistance scenario_engine 0 0 0 2 = 0x1.bcc79ad9adfecp+7 ∧
  sidebar scenario_engine (Some (0, 0)) [plane_far; plane_near] =
    [plane_near; plane_far] ∧
  sidebar scenario_engine (Some (0, 0)) [plane_near; plane_far] =
    [plane_near; plane_far].
Proof.
  exact (proj2 (proj2 (proj2 (sidebar_order scenario_engine)))
           eq_refl eq_refl eq_refl eq_refl).
Defined.

(** * More of the sidebar *)

Lemma sort_insert_active (E : Engine) (x : Plane (option float))
    (l : list (Plane (option float))) :
  active x = true → sort_insert (sidebar_compare E None) x l = x :: l.
Proof.
  intros Hx. destruct l as [|y l]; [done|]. cbn [sort_insert].
  unfold sidebar_compare. rewrite Hx. by destruct (active y).
Qed.

Lemma sort_insert_inactive (E : Engine) (x : Plane (option float))
    (l1 l2 : list (Plane (option float))) :
  active x = false →
  Forall (λ p, active p = true) l1 → Forall (λ p, active p = false) l2 →
  sort_insert (sidebar_compare E None) x (l1 ++ l2) = l1 ++ x :: l2.
Proof.
  intros Hx Hl1 Hl2. induction Hl1 as [|y l1 Hy Hl1 IH].
  - destruct Hl2 as [|y l2 Hy Hl2]; [done|]. cbn [sort_insert app].
    unfold sidebar_compare. by rewrite Hx, Hy.
  - cbn [sort_insert app]. rewrite IH.
    unfold sidebar_compare. by rewrite Hx, Hy.
Qed.

(** X17.  Without a home location the sidebar is the tracked array with
    its active aircraft moved to the front: the active ones in the order
    of the array, then the inactive ones in the order of the array. *)
Theorem sidebar_without_home (E : Engine) (ps : list (Plane (option float))) :
  sidebar E None ps =
  filter (λ p, active p = true) ps ++ filter (λ p, active p = false) ps.
Proof.
  unfold sidebar, Array_sort. induction ps as [|x ps IH]; [done|].
  cbn [fold_right]. rewrite IH, !filter_cons.
  destruct (active x) eqn:Hx.
  - destruct (decide (true = true)); [|done].
    destruct (decide (true = false)); [done|].
    by apply sort_insert_active.
  - destruct (decide (false = true)); [done|].
    destruct (decide (false = false)); [|done].
    apply sort_insert_inactive; [done|..]; apply Forall_forall;
      by intros p [? _]%list_elem_of_filter.
Qed.

(** X19.  A coordinate that is infinite or NaN makes the distance NaN
    in every engine; so an aircraft tracked without its latitude or its
    longitude, or with one that is not finite, has the comparator return
    NaN against every aircraft of its activity, once there is a home
    location. *)
Theorem haversineDistance_of_missing_coordinate (E : Engine) :
  (∀ lat1 lon1 lat2 lon2 : float,
     finite lat1 && finite lon1 && finite lat2 && finite lon2 = false →
     haversineDistance E lat1 lon1 lat2 lon2 = nan) ∧
  (∀ (home : float * float) (a b : Plane (option float)),
     active a = active b →
     present_finite (lat a) && present_finite (lon a) = false →
     sidebar_compare E (Some home) a b = nan ∧
     sidebar_compare E (Some home) b a = nan).
Proof.
  split; [apply haversineDistance_nonfinite|].
  intros home a b Hact Hlost.
  assert (finite (ToNumber (lat a)) && finite (ToNumber (lon a)) = false)
    as Hnan.
  { by destruct (lat a), (lon a). }
  split; apply sidebar_compare_lost; try done.
  - by rewrite Hnan.
  - rewrite <- andb_assoc, Hnan. apply andb_false_r.
Qed.

Lemma haversineDistance_of_missing_coordinate_witness :
  malformed plane_lost = true ∧
  active plane_lost = active plane_near ∧
  present_finite (lat plane_lost) && present_finite (lon plane_lost) = false ∧
  sidebar_compare scenario_engine (Some (0, 0)) plane_lost plane_near = nan ∧
  sidebar_compare scenario_engine (Some (0, 0)) plane_near plane_lost = nan.
Proof.
  split_and!; [reflexivity|reflexivity|reflexivity|..];
    apply (proj2 (haversineDistance_of_missing_coordinate scenario_engine)
             (0, 0) plane_lost plane_near eq_refl eq_refl).
Defined.

(** * More of the great-circle distance *)

(** X20.  In every engine whose sine is odd, the distance from one
    point to another is the distance back, NaN included. *)
Theorem haversineDistance_symmetric (E : Engine)
    (lat1 lon1 lat2 lon2 : float) :
  (∀ x, sin_approx E (- x) = - sin_approx E x) →
  haversine_a E lat1 lon1 lat2 lon2 = haversine_a E lat2 lon2 lat1 lon1 ∧
  haversineDistance E lat1 lon1 lat2 lon2 =
  haversineDistance E lat2 lon2 lat1 lon1.
Proof.
  intros Hodd.
  pose proof (haversine_a_sym E lat1 lon1 lat2 lon2 Hodd) as Ha.
  split; [exact Ha|]. unfold haversineDistance. cbv zeta. by rewrite Ha.
Qed.

Lemma haversineDistance_symmetric_witness :
  (∀ x, sin_approx small_angle_engine (- x) = - sin_approx small_angle_engine x) ∧
  haversineDistance small_angle_engine 40 (-75) 41 (-74) =
  haversineDistance small_angle_engine 41 (-74) 40 (-75).
Proof.
  assert (∀ x, sin_approx small_angle_engine (- x) =
               - sin_approx small_angle_engine x) as Hodd by done.
  split; [exact Hodd|].
  exact (proj2 (haversineDistance_symmetric small_angle_engine
                  40 (-75) 41 (-74) Hodd)).
Defined.

(** X21.  The distance from a point with finite coordinates to itself
    is [+0], in every engine in which the square of the cosine of the
    latitude is finite. *)
Theorem haversineDistance_same_point (E : Engine) (lat lon : float) :
  finite lat = true → finite lon = true →
  finite (Math_cos E (toRad lat) * Math_cos E (toRad lat)) = true →
  haversine_a E lat lon lat lon = 0 ∧
  haversineDistance E lat lon lat lon = 0.
Proof.
  intros Hlat Hlon Hcos.
  pose proof (haversine_a_same E lat lon Hlat Hlon Hcos) as Ha.
  split; [exact Ha|]. unfold haversineDistance. cbv zeta. by rewrite Ha.
Qed.

Lemma haversineDistance_same_point_witness :
  finite 12 = true ∧ finite (-75) = true ∧
  finite (Math_cos scenario_engine (toRad 12) *
          Math_cos scenario_engine (toRad 12)) = true ∧
  haversineDistance scenario_engine 12 (-75) 12 (-75) = 0.
Proof.
  split_and!; [reflexivity|reflexivity|reflexivity|].
  exact (proj2 (haversineDistance_same_point scenario_engine 12 (-75)
                  eq_refl eq_refl eq_refl)).
Defined.

(** X22.  Off the equator: from (40, -75), in an engine that rounds the
    sine, the cosine and the arc tangent to the nearest double at the
    arguments reached, the distances to (40, -74) and to (40, -71) are
    [0x1.54b81fd664111p+6] and [0x1.54b142d947897p+8]
    (85.17980895028838 km and 340.692426280942 km), and the sidebar
    lists the aircraft at (40, -74) first. *)
Theorem haversineDistance_on_a_parallel (E : Engine) :
  sin_approx E 0x1.1df46a2529d39p-7 = 0x1.1df37c4954c21p-7 →
  sin_approx E 0x1.1df46a2529d39p-5 = 0x1.1de58c9f7dc27p-5 →
  cos_approx E 0x1.657184ae74487p-1 = 0x1.8836fa2cf5039p-1 →
  atan2_approx E 0x1.b61a3f1e8028p-8 0x1.fffd1240085f9p-1 =
    0x1.b61b14f78ac1p-8 →
  atan2_approx E 0x1.b604e524429edp-6 0x1.ffd1268f45b29p-1 =
    0x1.b61241c8d3e32p-6 →
  haversineDistance E 40 (-75) 40 (-74) = 0x1.54b81fd664111p+6 ∧
  haversineDistance E 40 (-75) 40 (-71) = 0x1.54b142d947897p+8 ∧
  sidebar E (Some (40, -75)) [plane_east; plane_west] =
    [plane_west; plane_east].
Proof.
  intros Hs1 Hs4 Hc Ht1 Ht4.
  assert (haversine_a E 40 (-75) 40 (-74) = 0x1.76dee956a0258p-15) as Ha1.
  { unfold haversine_a. cbv zeta.
    change (toRad (40 - 40) / 2) with 0.
    change (toRad 40) with 0x1.657184ae74487p-1.
    change (toRad (-74 - -75) / 2) with 0x1.1df46a2529d39p-7.
    change (Math_sin E 0) with 0.
    rewrite !Math_sin_approx, !Math_cos_approx by reflexivity.
    rewrite Hs1, Hc. reflexivity. }
  assert (haversine_a E 40 (-75) 40 (-71) = 0x1.76ba60180519cp-11) as Ha4.
  { unfold haversine_a. cbv zeta.
    change (toRad (40 - 40) / 2) with 0.
    change (toRad 40) with 0x1.657184ae74487p-1.
    change (toRad (-71 - -75) / 2) with 0x1.1df46a2529d39p-5.
    change (Math_sin E 0) with 0.
    rewrite !Math_sin_approx, !Math_cos_approx by reflexivity.
    rewrite Hs4, Hc. reflexivity. }
  assert (haversineDistance E 40 (-75) 40 (-74) = 0x1.54b81fd664111p+6 ∧
          haversineDistance E 40 (-75) 40 (-71) = 0x1.54b142d947897p+8)
    as [Hd1 Hd4].
  { unfold haversineDistance. cbv zeta. rewrite Ha1, Ha4.
    change (Math_sqrt 0x1.76dee956a0258p-15) with 0x1.b61a3f1e8028p-8.
    change (Math_sqrt (1 - 0x1.76dee956a0258p-15))
      with 0x1.fffd1240085f9p-1.
    change (Math_sqrt 0x1.76ba60180519cp-11) with 0x1.b604e524429edp-6.
    change (Math_sqrt (1 - 0x1.76ba60180519cp-11))
      with 0x1.ffd1268f45b29p-1.
    rewrite !Math_atan2_approx by reflexivity. rewrite Ht1, Ht4.
    by split. }
  split_and!; [done|done|].
  apply (sidebar_pair_by_distance E (40, -75) plane_west plane_east);
    [done|].
  change ((haversineDistance E 40 (-75) 40 (-74) <?
           haversineDistance E 40 (-75) 40 (-71)) = true).
  by rewrite Hd1, Hd4.
Qed.

Lemma haversineDistance_on_a_parallel_witness :
  haversineDistance scenario_engine 40 (-75) 40 (-74) =
    0x1.54b81fd664111p+6 ∧
  haversineDistance scenario_engine 40 (-75) 40 (-71) =
    0x1.54b142d947897p+8 ∧
  sidebar scenario_engine (Some (40, -75)) [plane_east; plane_west] =
    [plane_west; plane_east].
Proof.
  exact (haversineDistance_on_a_parallel scenario_engine
           eq_refl eq_refl eq_refl eq_refl eq_refl).
Defined.

Local Close Scope float_scope.
Local Close Scope Z_scope.

(** * The scale of the icons *)

Local Open Scope R_scope.

(** X11.  A higher aircraft never gets a smaller icon. *)
Theorem getScaleFromAltitude_monotone (a b : R) :
  a <= b → getScaleFromAltitude a <= getScaleFromAltitude b.
Proof.
  intros Hab. unfold getScaleFromAltitude, Rmax, Rmin.
  destruct (Rle_dec 40000 a), (Rle_dec 40000 b), (Rle_dec 0 40000),
    (Rle_dec 0 a), (Rle_dec 0 b); lra.
Qed.

Lemma getScaleFromAltitude_monotone_witness :
  10000 <= 32000 ∧ getScaleFromAltitude 10000 <= getScaleFromAltitude 32000.
Proof.
  assert (10000 <= 32000) as H by lra.
  split; [exact H|]. exact (getScaleFromAltitude_monotone 10000 32000 H).
Defined.

Local Close Scope R_scope.
